(** * The split delta of the CKEditor 5 model engine

    A shallow embedding of the module [engine/model/delta/splitdelta], the
    second part of [ckeditor5-engine/src/dataprocessor/dataprocessor.ts]
    (the first part declares the [DataProcessor] interface and has no
    behaviour): the [SplitDelta] class (its [position], [getReversed],
    [_cloneOperation], [_moveOperation], [_reverseDeltaClass], [className]
    and [_priority] members), the [Batch#split] method registered by the
    module, and the module's call to [DeltaFactory.register].

    The last part of the file covers the table generation of
    [scripts/docs/build-features-overview.js].

    JavaScript objects that are shared and mutated (elements, deltas,
    batches) live in stores indexed by references; operations and positions
    are values.  Collaborators whose source is not part of this module
    (batch, delta base class, document, position, element, delta factory)
    are modelled from the specification and marked as such. *)

From stdpp Require Import gmap strings list fin_maps numbers.
From Stdlib Require Import ZArith Lia Ascii DecimalString.

Local Open Scope Z_scope.
Local Open Scope nat_scope.

(** ** Data model *)

(** A reference to a JavaScript object held in one of the stores. *)
Abbreviation ref := nat.

(** A position: a root element and a path of offsets from it. *)
Record Position := mkPosition {
  root : ref;
  path : list nat
}.

Global Instance Position_eq_dec : EqDecision Position.
Proof. solve_decision. Defined.

(** A child slot of an element: an element object or a run of text. *)
Inductive Child :=
  | ChildElement (r : ref)
  | ChildText (data : string).

Global Instance Child_eq_dec : EqDecision Child.
Proof. solve_decision. Defined.

(** An element object.  [parent] is the back-reference: [None] is the
    JavaScript [null] of a root or of an element not yet attached. *)
Record Element := mkElement {
  name : string;
  attrs : gmap string string;
  children : list Child;
  parent : option ref
}.

(** The operations this module constructs.  [nodes] of an insertion are
    the inserted children; [howMany] is the difference of two offsets and
    so an integer. *)
Inductive OperationKind :=
  | InsertOperation (position : Position) (nodes : list Child)
  | MoveOperation (sourcePosition : Position) (howMany : Z)
      (targetPosition : Position).

Global Instance OperationKind_eq_dec : EqDecision OperationKind.
Proof. solve_decision. Defined.

Record Operation := mkOperation {
  kind : OperationKind;
  baseVersion : nat;
  isSticky : bool
}.

Global Instance Operation_eq_dec : EqDecision Operation.
Proof. solve_decision. Defined.

(** The delta classes named by the module. *)
Inductive DeltaClass := Delta | SplitDelta | MergeDelta.

Global Instance DeltaClass_eq_dec : EqDecision DeltaClass.
Proof. solve_decision. Defined.

(** A delta object: its class, its operations in order and the owning
    batch (back-reference). *)
Record DeltaObj := mkDelta {
  class : DeltaClass;
  operations : list Operation;
  batch : option ref
}.

Global Instance DeltaObj_eq_dec : EqDecision DeltaObj.
Proof. solve_decision. Defined.

(** A batch object: its deltas in order. Its document is the one of the
    world it lives in. *)
Record BatchObj := mkBatch {
  deltas : list ref
}.

(** The document: version counter and history of applied operations.  The
    tree it owns is the element store of the world. *)
Record Document := mkDocument {
  version : nat;
  history : list Operation
}.

(** The object graph a call runs in. *)
Record World := mkWorld {
  elementStore : gmap ref Element;
  deltaStore : gmap ref DeltaObj;
  batchStore : gmap ref BatchObj;
  document : Document
}.

(** What a call can throw. *)
Inductive Exn :=
  | CKEditorError (message : string)
  | InvalidLocation
  | VersionMismatch
  | TypeError.

(** A JavaScript value that may be [null] or [undefined]. *)
Inductive Nullable (A : Type) :=
  | Null
  | Undefined
  | Value (a : A).
Arguments Null {A}.
Arguments Undefined {A}.
Arguments Value {A} a.

(** ** Calls as state transformers that may throw *)

Inductive Completion (A : Type) :=
  | Return (a : A)
  | Throw (e : Exn).
Arguments Return {A} a.
Arguments Throw {A} e.

(** A call maps the world before it to its completion and the world at
    that point: what was mutated before a throw stays mutated. *)
Definition M (A : Type) : Type := World → Completion A * World.

Global Instance M_ret : MRet M := λ A a w, (Return a, w).
Global Instance M_bind : MBind M := λ A B f m w,
  match m w with
  | (Return a, w') => f a w'
  | (Throw e, w') => (Throw e, w')
  end.

Definition throw {A} (e : Exn) : M A := λ w, (Throw e, w).
Definition gets {A} (f : World → A) : M A := λ w, (Return (f w), w).
Definition modify (f : World → World) : M unit := λ w, (Return tt, f w).

(** [o] when it is defined, otherwise throw [e]. *)
Definition orThrow {A} (e : Exn) (o : option A) : M A :=
  match o with
  | Some a => mret a
  | None => throw e
  end.

Definition setElementStore (f : gmap ref Element → gmap ref Element) (w : World) : World :=
  mkWorld (f (elementStore w)) (deltaStore w) (batchStore w) (document w).
Definition setDeltaStore (f : gmap ref DeltaObj → gmap ref DeltaObj) (w : World) : World :=
  mkWorld (elementStore w) (f (deltaStore w)) (batchStore w) (document w).
Definition setBatchStore (f : gmap ref BatchObj → gmap ref BatchObj) (w : World) : World :=
  mkWorld (elementStore w) (deltaStore w) (f (batchStore w)) (document w).
Definition setDocument (f : Document → Document) (w : World) : World :=
  mkWorld (elementStore w) (deltaStore w) (batchStore w) (f (document w)).

(** ** Elements and positions *)

(** Modelled from the spec: the element class is not part of this module.
    The width a child occupies in its parent: one slot for an element, one
    slot per character for a text run. *)
Definition offsetSize (c : Child) : nat :=
  match c with
  | ChildElement _ => 1
  | ChildText data => String.length data
  end.

(** Modelled from the spec: [maxOffset], the total width occupied by the
    children, is the sum of the children's widths. *)
Definition maxOffset (e : Element) : nat :=
  sum_list (offsetSize <$> children e).

(** Modelled from the spec: the offset at which the element [n] starts
    among the children [cs]; undefined when [n] is not one of them. *)
Fixpoint getChildStartOffset (cs : list Child) (n : ref) : option nat :=
  match cs with
  | [] => None
  | c :: cs' =>
      if decide (c = ChildElement n) then Some 0
      else (λ o, offsetSize c + o) <$> getChildStartOffset cs' n
  end.

(** Modelled from the spec: the child occupying offset [o]. *)
Fixpoint childAtOffset (cs : list Child) (o : nat) : option Child :=
  match cs with
  | [] => None
  | c :: cs' =>
      if decide (o < offsetSize c) then Some c
      else childAtOffset cs' (o - offsetSize c)
  end.

(** Modelled from the spec: the children before and from offset [o]; a
    text run that spans [o] is cut there.  Undefined when [o] exceeds the
    total width. *)
Fixpoint splitChildren (cs : list Child) (o : nat) : option (list Child * list Child) :=
  match cs with
  | [] => if decide (o = 0) then Some ([], []) else None
  | c :: cs' =>
      if decide (o = 0) then Some ([], cs)
      else if decide (offsetSize c ≤ o) then
        prod_map (cons c) id <$> splitChildren cs' (o - offsetSize c)
      else
        match c with
        | ChildText data =>
            Some ([ChildText (String.substring 0 o data)],
                  ChildText (String.substring o (String.length data - o) data) :: cs')
        | ChildElement _ => None
        end
  end.

(** Modelled from the spec: walk down from [cur] along the offsets [offs],
    each step entering the element that occupies the offset. *)
Fixpoint descend (els : gmap ref Element) (cur : ref) (offs : list nat) : option ref :=
  match offs with
  | [] => Some cur
  | o :: offs' =>
      e ← els !! cur;
      match childAtOffset (children e) o with
      | Some (ChildElement c) => descend els c offs'
      | _ => None
      end
  end.

(** Modelled from the spec: [position.parent], the element containing the
    position: the walk from the root along all offsets but the last. *)
Definition Position_parent (els : gmap ref Element) (p : Position) : option ref :=
  descend els (root p) (removelast (path p)).

(** Modelled from the spec: [position.offset], the last offset of the
    path.  The module reads it only of a position whose parent is not the
    root, whose path has at least two offsets. *)
Definition Position_offset (p : Position) : nat :=
  List.last (path p) 0.

(** Modelled from the spec: [getPath()] climbs the parent back-references
    from [n] to an element without parent and collects the start offsets
    on the way.  The climb is a loop in the source; [fuel] bounds it. *)
Fixpoint getPath (fuel : nat) (els : gmap ref Element) (n : ref) : option (list nat) :=
  match fuel with
  | 0 => None
  | S fuel' =>
      e ← els !! n;
      match parent e with
      | None => Some []
      | Some q =>
          qe ← els !! q;
          o ← getChildStartOffset (children qe) n;
          pp ← getPath fuel' els q;
          Some (pp ++ [o])
      end
  end.

(** Modelled from the spec: [node.root], the end of the same climb. *)
Fixpoint getRoot (fuel : nat) (els : gmap ref Element) (n : ref) : option ref :=
  match fuel with
  | 0 => None
  | S fuel' =>
      e ← els !! n;
      match parent e with
      | None => Some n
      | Some q => getRoot fuel' els q
      end
  end.

(** A climb visits each element at most once, so as many steps as there
    are elements (and one more) suffice. *)
Definition climbFuel (els : gmap ref Element) : nat := S (size els).

(** Modelled from the spec: [Position.createFromParentAndOffset]. *)
Definition createFromParentAndOffset (els : gmap ref Element) (q : ref) (o : nat) : option Position :=
  r ← getRoot (climbFuel els) els q;
  pp ← getPath (climbFuel els) els q;
  Some (mkPosition r (pp ++ [o])).

(** Modelled from the spec: [Position.createAfter], the position in the
    parent of [n] at the end offset of [n]. *)
Definition createAfter (els : gmap ref Element) (n : ref) : option Position :=
  e ← els !! n;
  q ← parent e;
  qe ← els !! q;
  o ← getChildStartOffset (children qe) n;
  createFromParentAndOffset els q (o + 1).

(** An element is attached when the climb from it succeeds: each element
    on the way up is among the children of its parent, and the way ends at
    an element without parent. *)
Definition attached (els : gmap ref Element) (n : ref) : Prop :=
  is_Some (getPath (climbFuel els) els n).

(** ** Collaborators of the module *)

(** Read an object through its reference; a dangling reference is the
    dereference of [undefined]. *)
Definition getElement (r : ref) : M Element :=
  λ w, orThrow TypeError (elementStore w !! r) w.
Definition getDelta (r : ref) : M DeltaObj :=
  λ w, orThrow TypeError (deltaStore w !! r) w.
Definition getBatch (r : ref) : M BatchObj :=
  λ w, orThrow TypeError (batchStore w !! r) w.

(** Modelled from the spec: [new Element( name, attrs )] creates an element
    with the given name and attributes, without children and not attached
    to any parent. *)
Definition new_Element (nm : string) (at_ : gmap string string) : M ref :=
  λ w, let r := fresh (dom (elementStore w)) in
       (Return r, setElementStore (insert r (mkElement nm at_ [] None)) w).

(** Modelled from the spec: a new delta of class [c] has no operations and
    no batch. *)
Definition new_Delta (c : DeltaClass) : M ref :=
  λ w, let r := fresh (dom (deltaStore w)) in
       (Return r, setDeltaStore (insert r (mkDelta c [] None)) w).

(** Modelled from the spec: [new InsertOperation( position, nodes,
    baseVersion )] and [new MoveOperation( sourcePosition, howMany,
    targetPosition, baseVersion )]; [isSticky] starts out false. *)
Definition new_InsertOperation (position : Position) (node : ref) (baseVersion : nat) : Operation :=
  mkOperation (InsertOperation position [ChildElement node]) baseVersion false.
Definition new_MoveOperation (sourcePosition : Position) (howMany : Z)
    (targetPosition : Position) (baseVersion : nat) : Operation :=
  mkOperation (MoveOperation sourcePosition howMany targetPosition) baseVersion false.

(** The assignment [op.isSticky = b]. *)
Definition set_isSticky (b : bool) (op : Operation) : Operation :=
  mkOperation (kind op) (baseVersion op) b.

(** Modelled from the spec: [batch.addDelta( delta )] attaches the delta
    to the batch: the delta's back-reference is set and the delta is
    appended to the batch's deltas. *)
Definition Batch_addDelta (this delta : ref) : M ref :=
  b ← getBatch this;
  d ← getDelta delta;
  modify (setDeltaStore (insert delta (mkDelta (class d) (operations d) (Some this))));;
  modify (setBatchStore (insert this (mkBatch (deltas b ++ [delta]))));;
  mret delta.

(** Modelled from the spec: [delta.addOperation( operation )] appends the
    operation to the delta's operations. *)
Definition Delta_addOperation (this : ref) (op : Operation) : M Operation :=
  d ← getDelta this;
  modify (setDeltaStore (insert this (mkDelta (class d) (operations d ++ [op]) (batch d))));;
  mret op.

(** Set the parent back-reference of every element among [nodes]. *)
Fixpoint attach (q : ref) (nodes : list Child) (els : gmap ref Element) : gmap ref Element :=
  match nodes with
  | [] => els
  | ChildElement n :: nodes' =>
      attach q nodes'
        (alter (λ e, mkElement (name e) (attrs e) (children e) (Some q)) n els)
  | ChildText _ :: nodes' => attach q nodes' els
  end.

Definition set_children (cs : list Child) (e : Element) : Element :=
  mkElement (name e) (attrs e) cs (parent e).

(** Modelled from the spec: the structural mutation of an operation on the
    tree.  An insertion puts its nodes at its position.  A move takes
    [howMany] slots from the source position and puts them at the target
    position, which is given in the tree before the move.  A position or
    a range that does not exist in the tree is an invalid location. *)
Definition execute (k : OperationKind) (els : gmap ref Element) : option (gmap ref Element) :=
  match k with
  | InsertOperation position nodes =>
      q ← Position_parent els position;
      qe ← els !! q;
      '(before, after) ← splitChildren (children qe) (Position_offset position);
      Some (attach q nodes (<[q := set_children (before ++ nodes ++ after) qe]> els))
  | MoveOperation sourcePosition howMany targetPosition =>
      s ← Position_parent els sourcePosition;
      t ← Position_parent els targetPosition;
      se ← els !! s;
      guard (0 ≤ howMany)%Z;;
      '(before, rest) ← splitChildren (children se) (Position_offset sourcePosition);
      '(moved, after) ← splitChildren rest (Z.to_nat howMany);
      let els1 := <[s := set_children (before ++ after) se]> els in
      te ← els1 !! t;
      o ← (if decide (s = t ∧ Position_offset sourcePosition < Position_offset targetPosition)
           then guard (Position_offset sourcePosition + Z.to_nat howMany
                         ≤ Position_offset targetPosition);;
                Some (Position_offset targetPosition - Z.to_nat howMany)
           else Some (Position_offset targetPosition));
      '(before', after') ← splitChildren (children te) o;
      Some (attach t moved (<[t := set_children (before' ++ moved ++ after') te]> els1))
  end.

(** Modelled from the spec: [document.applyOperation( operation )] asserts
    that the operation's base version is the document's version, performs
    the structural mutation, appends the operation to the history and
    increments the version. *)
Definition Document_applyOperation (op : Operation) : M unit :=
  v ← gets (version ∘ document);
  if decide (baseVersion op = v) then
    els ← gets elementStore;
    els' ← orThrow InvalidLocation (execute (kind op) els);
    modify (setElementStore (λ _, els'));;
    modify (setDocument (λ d, mkDocument (S (version d)) (history d ++ [op])))
  else throw VersionMismatch.

(** ** The [SplitDelta] class *)

(** [sourcePosition] of an operation: only a move operation has it. *)
Definition Operation_sourcePosition (op : Operation) : Nullable Position :=
  match kind op with
  | MoveOperation sourcePosition _ _ => Value sourcePosition
  | InsertOperation _ _ => Undefined
  end.

(** [get _cloneOperation()]: [this.operations[ 0 ] || null]. *)
Definition SplitDelta__cloneOperation (this : DeltaObj) : Nullable Operation :=
  match operations this !! 0 with
  | Some op => Value op
  | None => Null
  end.

(** [get _moveOperation()]: [this.operations[ 1 ] || null]. *)
Definition SplitDelta__moveOperation (this : DeltaObj) : Nullable Operation :=
  match operations this !! 1 with
  | Some op => Value op
  | None => Null
  end.

(** [get position()]:
    [this._moveOperation ? this._moveOperation.sourcePosition : null]. *)
Definition SplitDelta_position (this : DeltaObj) : Nullable Position :=
  match SplitDelta__moveOperation this with
  | Value op => Operation_sourcePosition op
  | _ => Null
  end.

(** [get _reverseDeltaClass()]. *)
Definition SplitDelta__reverseDeltaClass : DeltaClass := MergeDelta.

(** [static get className()]. *)
Definition SplitDelta_className : string := "engine.model.delta.SplitDelta".

(** [static get _priority()]. *)
Definition SplitDelta__priority : Z := 5.

Section Reversal.

(** The reversal of a single operation belongs to the operation classes,
    which are not part of this module. *)
Variable Operation_getReversed : Operation → Operation.

(** Modelled from the spec: [getReversed()] of the delta base class
    reverses the operations in reverse order, each reversed individually,
    and wraps them in a new delta of the reverse delta class. *)
Definition Delta_getReversed (reverseDeltaClass : DeltaClass) (this : DeltaObj) : DeltaObj :=
  mkDelta reverseDeltaClass (Operation_getReversed <$> reverse (operations this)) None.

(** [getReversed()] of the split delta: the base reversal, then
    [delta.operations[ 0 ].isSticky = true] when there is an operation. *)
Definition SplitDelta_getReversed (this : DeltaObj) : DeltaObj :=
  let delta := Delta_getReversed SplitDelta__reverseDeltaClass this in
  if decide (0 < length (operations delta)) then
    mkDelta (class delta) (alter (set_isSticky true) 0 (operations delta)) (batch delta)
  else delta.

End Reversal.

(** ** The [split] method of the batch *)

Definition batch_split_root : Exn :=
  CKEditorError "batch-split-root: Root element can not be split.".

(** [register( 'split', function( position ) { ... } )]. *)
Definition split (this : ref) (position : Position) : M ref :=
  delta ← new_Delta SplitDelta;
  Batch_addDelta this delta;;
  splitElement ← (els ← gets elementStore;
                  orThrow InvalidLocation (Position_parent els position));
  splitElementObj ← getElement splitElement;
  match parent splitElementObj with
  | None => throw batch_split_root
  | Some _ =>
      copy ← new_Element (name splitElementObj) (attrs splitElementObj);
      after ← (els ← gets elementStore;
               orThrow InvalidLocation (createAfter els splitElement));
      v ← gets (version ∘ document);
      let insert := new_InsertOperation after copy v in
      Delta_addOperation delta insert;;
      Document_applyOperation insert;;
      splitElementObj' ← getElement splitElement;
      target ← (els ← gets elementStore;
                orThrow InvalidLocation (createFromParentAndOffset els copy 0));
      v' ← gets (version ∘ document);
      let move := new_MoveOperation position
                    (Z.of_nat (maxOffset splitElementObj') - Z.of_nat (Position_offset position))
                    target v' in
      let move := set_isSticky true move in
      Delta_addOperation delta move;;
      Document_applyOperation move;;
      mret this
  end.

(** ** The delta factory *)

(** Modelled from the spec: [DeltaFactory.register] associates the class
    with its tag; registering again under the same tag is idempotent for
    the same class and an error for a different one. *)
Definition DeltaFactory_register (tag : string) (c : DeltaClass)
    (registry : gmap string DeltaClass) : option (gmap string DeltaClass) :=
  match registry !! tag with
  | None => Some (<[tag := c]> registry)
  | Some c' => if decide (c' = c) then Some registry else None
  end.

(** [DeltaFactory.register( SplitDelta )], run when the module is loaded. *)
Definition registerSplitDelta (registry : gmap string DeltaClass) : option (gmap string DeltaClass) :=
  DeltaFactory_register SplitDelta_className SplitDelta registry.

(** ** Examples *)

Module Examples.

Definition p_attrs : gmap string string := {[ "align" := "left" ]}.

(** [<root><p align=left>abcd<img/></p><h/></root>]: element 0 is the
    root, 1 the paragraph, 2 the image, 3 the heading. *)
Definition els0 : gmap ref Element :=
  <[0 := mkElement "$root" ∅ [ChildElement 1; ChildElement 3] None]>
  (<[1 := mkElement "p" p_attrs [ChildText "abcd"; ChildElement 2] (Some 0)]>
  (<[2 := mkElement "img" ∅ [] (Some 1)]>
  (<[3 := mkElement "h" ∅ [] (Some 0)]> ∅))).

(** One batch, 7, without deltas; the document is at version 4. *)
Definition w0 : World :=
  mkWorld els0 ∅ {[ 7 := mkBatch [] ]} (mkDocument 4 []).

(** [<p>ab|cd<img/></p>]. *)
Definition P : Position := mkPosition 0 [0; 2].

(** A position directly in the root. *)
Definition Proot : Position := mkPosition 0 [1].

(** The split delta that [split] builds for [P] in [w0]. *)
Definition insert0 : Operation :=
  new_InsertOperation (mkPosition 0 [1]) 4 4.
Definition move0 : Operation :=
  set_isSticky true (new_MoveOperation P 3 (mkPosition 0 [1; 0]) 5).
Definition splitDelta0 : DeltaObj := mkDelta SplitDelta [insert0; move0] (Some 7).

(** A split delta without operations. *)
Definition emptyDelta : DeltaObj := mkDelta SplitDelta [] None.

(** Modelled from the spec: a reversal of single operations.  The
    reverse of a move swaps source and target; the reverse of an
    insertion is a removal, a move of the inserted slots to a holding
    root (here element 9).  Both are stamped with the base version of
    the forward operation plus one. *)
Definition Operation_getReversed (op : Operation) : Operation :=
  match kind op with
  | InsertOperation position nodes =>
      mkOperation
        (MoveOperation position (Z.of_nat (sum_list (offsetSize <$> nodes)))
           (mkPosition 9 [0]))
        (S (baseVersion op)) false
  | MoveOperation sourcePosition howMany targetPosition =>
      mkOperation (MoveOperation targetPosition howMany sourcePosition)
        (S (baseVersion op)) false
  end.

End Examples.

(** ** The features overview script

    The functions of [scripts/docs/build-features-overview.js] that
    compute the table of features from the parsed package metadata.
    Reading, globbing and writing files, [JSON.parse] and the sort by
    [localeCompare] are left out.  A JavaScript string is modelled by the
    bytes of its UTF-8 encoding; all patterns the script matches are
    ASCII, so searching and replacing on the bytes agrees with the
    source. *)
Module FeaturesOverview.

(** The double quote character, as a string. *)
Definition dquote : string := String "034"%char EmptyString.

(** A number in a template literal: its decimal digits. *)
Definition toString (n : nat) : string :=
  NilZero.string_of_uint (Nat.to_uint n).

(** A value that is a string or an array of strings. *)
Inductive StringOrArray :=
  | JsString (s : string)
  | JsArray (items : list string).

(** The test [value ? ... : ...] on an optional string or array: an
    absent value and the empty string are falsy, every array is truthy. *)
Definition truthy (value : option StringOrArray) : option StringOrArray :=
  match value with
  | Some (JsString s) => if decide (s = "") then None else value
  | _ => value
  end.

Definition truthyString (value : option string) : option string :=
  match value with
  | Some s => if decide (s = "") then None else value
  | None => None
  end.

(** *** Built-in string methods the script calls *)

(** [s.replace( /^p/g, '' )]: [s] without the prefix [p], if it has it. *)
Fixpoint stripPrefix (p s : string) : option string :=
  match p with
  | EmptyString => Some s
  | String a p' =>
      match s with
      | String b s' => if decide (a = b) then stripPrefix p' s' else None
      | EmptyString => None
      end
  end.

(** [s.replace( /p$/g, '' )]: [s] without the suffix [p], if it has it. *)
Fixpoint stripSuffix (p s : string) : option string :=
  if decide (s = p) then Some EmptyString
  else match s with
       | EmptyString => None
       | String a s' => String a <$> stripSuffix p s'
       end.

(** [s.replace( /c/g, r )] for single characters [c] and [r]. *)
Fixpoint replaceAllChar (c r : ascii) (s : string) : string :=
  match s with
  | EmptyString => EmptyString
  | String a s' => String (if decide (a = c) then r else a) (replaceAllChar c r s')
  end.

(** [s.replace( c, r )] for a one-character string [c]: only the first
    occurrence is replaced. *)
Fixpoint replaceFirstChar (c : ascii) (r : string) (s : string) : string :=
  match s with
  | EmptyString => EmptyString
  | String a s' =>
      if decide (a = c) then r +:+ s' else String a (replaceFirstChar c r s')
  end.

(** [/p/.test( s )]: [p] occurs somewhere in [s]. *)
Fixpoint includes (p s : string) : bool :=
  if String.prefix p s then true
  else match s with
       | EmptyString => false
       | String _ s' => includes p s'
       end.

(** A line terminator starts here: the characters that [.] does not
    match (line feed, carriage return, U+2028 and U+2029, the last two by
    their three bytes). *)
Definition lineTerminator (a : ascii) (rest : string) : bool :=
  if decide (a = "010"%char) then true
  else if decide (a = "013"%char) then true
  else if decide (a = "226"%char) then
    String.prefix (String "128"%char (String "168"%char EmptyString)) rest
    || String.prefix (String "128"%char (String "169"%char EmptyString)) rest
  else false.

(** [s.replace( /`(.*?)`/g, '<code>$1</code>' )].  [opened] is [None]
    outside a pair of backticks and holds the text since the opening
    backtick inside one.  An opening backtick that meets a line terminator
    or the end of the string before a closing one stays as it is. *)
Fixpoint codeSpans (opened : option string) (s : string) : string :=
  match s with
  | EmptyString =>
      match opened with
      | None => EmptyString
      | Some text => "`" +:+ text
      end
  | String a s' =>
      match opened with
      | None =>
          if decide (a = "`"%char) then codeSpans (Some EmptyString) s'
          else String a (codeSpans None s')
      | Some text =>
          if decide (a = "`"%char) then
            "<code>" +:+ text +:+ "</code>" +:+ codeSpans None s'
          else if lineTerminator a s' then
            "`" +:+ text +:+ String a (codeSpans None s')
          else codeSpans (Some (text +:+ String a EmptyString)) s'
      end
  end.

(** *** The data of the script *)

Module HtmlOutput.
Record t := mk {
  elements : option StringOrArray;
  classes : option StringOrArray;
  styles : option StringOrArray;
  attributes : option StringOrArray;
  implements : option StringOrArray;
  _comment : option string
}.
End HtmlOutput.

Module Plugin.
Record t := mk {
  name : string;
  className : string;
  docs : option string;
  path : string;
  htmlOutput : option (list HtmlOutput.t)
}.
End Plugin.

Module ParsedPlugin.
Record t := mk {
  name : string;
  htmlOutput : list string
}.
End ParsedPlugin.

Module ParsedFile.
Record t := mk {
  packageName : string;
  plugins : list ParsedPlugin.t
}.
End ParsedFile.

(** *** The functions of the script *)

(** [toArray( data )]. *)
Definition toArray (data : StringOrArray) : list string :=
  match data with
  | JsArray items => items
  | JsString s => [s]
  end.

(** The options of [wrapBy]; an absent option is the empty string. *)
Record WrapOptions := mkWrap {
  prefix : option string;
  suffix : option string
}.

(** [wrapBy( { prefix = '', suffix = '' } = {} )]. *)
Definition wrapBy (options : WrapOptions) (item : string) : string :=
  default EmptyString (prefix options) +:+ item +:+ default EmptyString (suffix options).

(** [prepareFeatureLink( plugin )].  An absent [docs] is the string
    [undefined] in the test and in the template. *)
Definition prepareFeatureLink (plugin : Plugin.t) : string :=
  let docs := default "undefined" (Plugin.docs plugin) in
  let link :=
    if includes "http:" docs || includes "https:" docs then docs
    else "../../../" +:+ docs in
  "<a href=" +:+ dquote +:+ link +:+ dquote +:+ ">" +:+ Plugin.name plugin +:+ "</a>".

(** The first two lines of [prepareApiLink]. *)
Definition shortPackageName (packageName : string) : string :=
  default packageName (stripPrefix "ckeditor5-" packageName).

Definition packagePath (path : string) : string :=
  let path1 := default path (stripPrefix "src/" path) in
  let path2 := default path1 (stripSuffix ".js" path1) in
  replaceAllChar "/"%char "_"%char path2.

(** [prepareApiLink( packageName, plugin )]. *)
Definition prepareApiLink (packageName : string) (plugin : Plugin.t) : string :=
  let link :=
    "../../../api/module_" +:+ shortPackageName packageName +:+ "_"
      +:+ packagePath (Plugin.path plugin) +:+ "-" +:+ Plugin.className plugin
      +:+ ".html" in
  "<a href=" +:+ dquote +:+ link +:+ dquote +:+ "><code class=" +:+ dquote
    +:+ "nowrap" +:+ dquote +:+ ">" +:+ Plugin.className plugin +:+ "</code></a>".

Definition strong : WrapOptions := mkWrap (Some "<strong>") (Some "</strong>").
Definition angle : WrapOptions := mkWrap (Some "&lt;") (Some "&gt;").
Definition code : WrapOptions := mkWrap (Some "<code>") (Some "</code>").

(** The six parts of an entry in [prepareHtmlOutput]. *)
Definition elementsPart (entry : HtmlOutput.t) : string :=
  match truthy (HtmlOutput.elements entry) with
  | Some v =>
      "<p>" +:+ String.concat ", "
                  (wrapBy code <$> (wrapBy angle <$> (wrapBy strong <$> toArray v)))
        +:+ "</p>"
  | None => EmptyString
  end.

Definition classesPart (entry : HtmlOutput.t) : string :=
  match truthy (HtmlOutput.classes entry) with
  | Some v =>
      "<p><code>&lt;… <strong>class</strong>=" +:+ dquote
        +:+ String.concat " " (toArray v) +:+ dquote +:+ "&gt;</code></p>"
  | None => EmptyString
  end.

Definition stylesPart (entry : HtmlOutput.t) : string :=
  match truthy (HtmlOutput.styles entry) with
  | Some v =>
      "<p><code>&lt;… <strong>style</strong>=" +:+ dquote
        +:+ String.concat "; " (wrapBy (mkWrap None (Some ":*")) <$> toArray v)
        +:+ dquote +:+ "&gt;</code></p>"
  | None => EmptyString
  end.

Definition attributesPart (entry : HtmlOutput.t) : string :=
  match truthy (HtmlOutput.attributes entry) with
  | Some v =>
      "<p><code>&lt;… "
        +:+ String.concat " "
              (wrapBy (mkWrap None (Some ("=" +:+ dquote +:+ "*" +:+ dquote)))
                 <$> (wrapBy strong <$> toArray v))
        +:+ "&gt;</code></p>"
  | None => EmptyString
  end.

Definition othersPart (entry : HtmlOutput.t) : string :=
  match truthy (HtmlOutput.implements entry) with
  | Some v =>
      "<p>HTML element may contain classes, styles or attributes, that are created by other plugins, which alter the "
        +:+ String.concat ", " (wrapBy code <$> (wrapBy angle <$> toArray v))
        +:+ " element.</p>"
  | None => EmptyString
  end.

Definition commentPart (entry : HtmlOutput.t) : string :=
  match truthyString (HtmlOutput._comment entry) with
  | Some comment =>
      "<p>"
        +:+ codeSpans None
              (replaceFirstChar ">"%char "&gt;"
                 (replaceFirstChar "<"%char "&lt;" comment))
        +:+ "</p>"
  | None => EmptyString
  end.

(** [prepareHtmlOutput( htmlOutput )]. *)
Definition prepareHtmlOutput (htmlOutput : list HtmlOutput.t) : list string :=
  (λ entry,
     String.concat EmptyString
       (filter (λ item, item ≠ EmptyString)
          [ elementsPart entry; classesPart entry; stylesPart entry;
            attributesPart entry; othersPart entry; commentPart entry ]))
  <$> htmlOutput.

(** [preparePlugins( packageName, plugins = [] )]. *)
Definition preparePlugins (packageName : string) (plugins : option (list Plugin.t))
    : list ParsedPlugin.t :=
  (λ plugin,
     let pluginName :=
       match truthyString (Plugin.docs plugin) with
       | Some _ => prepareFeatureLink plugin
       | None => Plugin.name plugin
       end in
     let pluginClassName := prepareApiLink packageName plugin in
     let htmlOutput :=
       match Plugin.htmlOutput plugin with
       | Some htmlOutput => prepareHtmlOutput htmlOutput
       | None => ["<p>None.</p>"]
       end in
     ParsedPlugin.mk
       ("<p>" +:+ pluginName +:+ "</p><p>" +:+ pluginClassName +:+ "</p>")
       htmlOutput)
  <$> default [] plugins.

(** The attribute [rowspan] of a cell that spans [n] rows. *)
Definition rowspan (n : nat) : string :=
  if decide (1 < n) then "rowspan=" +:+ dquote +:+ toString n +:+ dquote
  else EmptyString.

(** In [parseMetadataFiles]: the number of rows of a package. *)
Definition numberOfRowsPerPackage (packageMetadata : ParsedFile.t) : nat :=
  foldl (λ result plugin, result + length (ParsedPlugin.htmlOutput plugin)) 0
    (ParsedFile.plugins packageMetadata).

(** In [parseMetadataFiles]: the rows of one plugin of a package, before
    they are joined. *)
Definition pluginRows (packageMetadata : ParsedFile.t) (pluginIndex : nat)
    (plugin : ParsedPlugin.t) : list string :=
  let packageNameRowspan := rowspan (numberOfRowsPerPackage packageMetadata) in
  let pluginNameRowspan := rowspan (length (ParsedPlugin.htmlOutput plugin)) in
  imap (λ htmlOutputIndex htmlOutput,
    let packageNameCell :=
      if decide (pluginIndex = 0 ∧ htmlOutputIndex = 0) then
        "<td " +:+ packageNameRowspan +:+ "><code class=" +:+ dquote +:+ "nowrap"
          +:+ dquote +:+ ">" +:+ ParsedFile.packageName packageMetadata
          +:+ "</code></td>"
      else EmptyString in
    let pluginNameCell :=
      if decide (htmlOutputIndex = 0) then
        "<td " +:+ pluginNameRowspan +:+ ">" +:+ ParsedPlugin.name plugin +:+ "</td>"
      else EmptyString in
    "<tr>" +:+ packageNameCell +:+ pluginNameCell +:+ "<td>" +:+ htmlOutput
      +:+ "</td></tr>")
    (ParsedPlugin.htmlOutput plugin).

(** In [parseMetadataFiles]: the rows of one package, joined. *)
Definition packageRows (packageMetadata : ParsedFile.t) : string :=
  String.concat EmptyString
    (imap (λ pluginIndex plugin,
             String.concat EmptyString (pluginRows packageMetadata pluginIndex plugin))
       (ParsedFile.plugins packageMetadata)).

(** [parseMetadataFiles()], given the result of [parseFiles()]: the output
    handed to [saveGeneratedOutput] and the number returned. *)
Definition parseMetadataFiles (files : list ParsedFile.t) : string * nat :=
  let parsedFiles := packageRows <$> files in
  let generatedOutput := String.concat EmptyString parsedFiles in
  (generatedOutput, length parsedFiles).


(** *** Sample metadata *)

Definition noOutput : HtmlOutput.t :=
  HtmlOutput.mk None None None None None None.

(** A plugin with relative documentation and two output entries. *)
Definition boldPlugin : Plugin.t :=
  Plugin.mk "Bold" "Bold" (Some "features/basic-styles.html")
    "src/bold/boldediting.js"
    (Some [ HtmlOutput.mk (Some (JsArray ["strong"; "b"])) None None None None None;
            HtmlOutput.mk None None None None None (Some "a < b < c") ]).

(** A plugin without documentation and without declared output. *)
Definition undoPlugin : Plugin.t :=
  Plugin.mk "Undo" "Undo" None "src/undo.js" None.

(** A plugin that declares an empty list of outputs. *)
Definition silentPlugin : Plugin.t :=
  Plugin.mk "Silent" "Silent" None "src/silent.js" (Some []).

End FeaturesOverview.

(** ** Offsets among children *)

Lemma getChildStartOffset_childAtOffset cs n o :
  getChildStartOffset cs n = Some o → childAtOffset cs o = Some (ChildElement n).
Proof.
  revert o. induction cs as [|c cs IH]; intros o; simpl; [done|].
  destruct (decide (c = ChildElement n)) as [->|Hne].
  - intros [= <-]. simpl. by destruct (decide (0 < 1)); [|lia].
  - destruct (getChildStartOffset cs n) as [o'|] eqn:Ho; [|done].
    intros [= <-]. destruct (decide (offsetSize c + o' < offsetSize c)); [lia|].
    replace (offsetSize c + o' - offsetSize c) with o' by lia. by apply IH.
Qed.

Lemma getChildStartOffset_elem_of cs n :
  ChildElement n ∈ cs → is_Some (getChildStartOffset cs n).
Proof.
  induction cs as [|c cs IH]; simpl; [by intros ?%elem_of_nil|].
  intros [->|Hin]%elem_of_cons.
  - rewrite decide_True; eauto.
  - destruct (decide (c = ChildElement n)); [eauto|].
    destruct (IH Hin) as [o ->]. simpl. eauto.
Qed.

Lemma getChildStartOffset_app_l cs cs' n o :
  getChildStartOffset cs n = Some o → getChildStartOffset (cs ++ cs') n = Some o.
Proof.
  revert o. induction cs as [|c cs IH]; intros o; simpl; [done|].
  destruct (decide (c = ChildElement n)); [done|].
  destruct (getChildStartOffset cs n) as [o'|]; [|done].
  intros [= <-]. by rewrite (IH o').
Qed.

Lemma splitChildren_0 cs : splitChildren cs 0 = Some ([], cs).
Proof. by destruct cs. Qed.

(** Cutting right after an element child never cuts a text run: the
    children are divided into those up to and including the element, and
    the rest. *)
Lemma splitChildren_after_child cs n o :
  getChildStartOffset cs n = Some o →
  ∃ pre rest,
    splitChildren cs (o + 1) = Some (pre ++ [ChildElement n], rest)
    ∧ cs = pre ++ ChildElement n :: rest
    ∧ getChildStartOffset (pre ++ [ChildElement n]) n = Some o.
Proof.
  revert o. induction cs as [|c cs IH]; intros o; simpl; [done|].
  destruct (decide (c = ChildElement n)) as [->|Hne].
  - intros [= <-]. simpl. rewrite splitChildren_0. simpl.
    exists [], cs. simpl. by rewrite decide_True.
  - destruct (getChildStartOffset cs n) as [o'|] eqn:Ho; [|done].
    intros [= <-]. destruct (IH o' eq_refl) as (pre & rest & Hs & -> & Hb).
    rewrite decide_False by lia. rewrite decide_True by lia.
    replace (offsetSize c + o' + 1 - offsetSize c) with (o' + 1) by lia.
    rewrite Hs. simpl. exists (c :: pre), rest. split_and!; [done..|].
    simpl. rewrite decide_False by done. by rewrite Hb.
Qed.

Lemma length_substring s n m :
  n + m ≤ String.length s → String.length (String.substring n m s) = m.
Proof.
  revert n m. induction s as [|a s IH]; intros [|n] [|m]; simpl; try lia.
  - intros ?. rewrite (IH 0 m); lia.
  - intros ?. apply (IH n 0). lia.
  - intros ?. apply (IH n (S m)). lia.
Qed.

(** A cut at offset [o] leaves width [o] before it and the remaining width
    after it. *)
Lemma splitChildren_width cs o before rest :
  splitChildren cs o = Some (before, rest) →
  sum_list (offsetSize <$> before) = o
  ∧ sum_list (offsetSize <$> rest) + o = sum_list (offsetSize <$> cs).
Proof.
  revert o before. induction cs as [|c cs IH]; intros o before; simpl.
  - destruct (decide (o = 0)); [|done]. intros [= <- <-]. csimpl. lia.
  - destruct (decide (o = 0)); [intros [= <- <-]; csimpl; lia|].
    destruct (decide (offsetSize c ≤ o)).
    + destruct (splitChildren cs (o - offsetSize c)) as [[a b]|] eqn:Hs; [|done].
      simpl. intros [= <- <-]. destruct (IH _ _ Hs) as [Ha Hb]. csimpl. lia.
    + destruct c as [r|data]; [done|]. intros [= <- <-]. csimpl.
      clear IH. simpl in *. rewrite !length_substring by lia. lia.
Qed.

(** Every offset up to the total width can be cut at. *)
Lemma splitChildren_is_Some cs o :
  o ≤ sum_list (offsetSize <$> cs) → is_Some (splitChildren cs o).
Proof.
  revert o. induction cs as [|c cs IH]; intros o; csimpl.
  - intros ?. rewrite decide_True by lia. eauto.
  - intros Ho. destruct (decide (o = 0)); [eauto|].
    destruct (decide (offsetSize c ≤ o)).
    + destruct (IH (o - offsetSize c)) as [[a b] ->]; [lia|]. simpl. eauto.
    + destruct c as [r|data]; [simpl in *; lia|]. eauto.
Qed.

(** ** Climbing to the root *)

Lemma getPath_mono f f' els n p :
  getPath f els n = Some p → f ≤ f' → getPath f' els n = Some p.
Proof.
  revert f' n p. induction f as [|f IH]; intros f' n p; simpl; [done|].
  intros H Hle. destruct f' as [|f']; [lia|]. simpl.
  destruct (els !! n) as [e|]; [|done]. simpl in *.
  destruct (parent e) as [q|]; [|done].
  destruct (els !! q) as [qe|]; [|done]. simpl in *.
  destruct (getChildStartOffset (children qe) n) as [o|]; [|done]. simpl in *.
  destruct (getPath f els q) as [pp|] eqn:Hq; [|done].
  rewrite (IH f' q pp Hq) by lia. done.
Qed.

Lemma getRoot_mono f f' els n r :
  getRoot f els n = Some r → f ≤ f' → getRoot f' els n = Some r.
Proof.
  revert f' n r. induction f as [|f IH]; intros f' n r; simpl; [done|].
  intros H Hle. destruct f' as [|f']; [lia|]. simpl.
  destruct (els !! n) as [e|]; [|done]. simpl in *.
  destruct (parent e) as [q|]; [|done].
  apply IH; [done|lia].
Qed.

(** Where the path of an element can be computed, so can its root. *)
Lemma getPath_getRoot f els n p :
  getPath f els n = Some p → is_Some (getRoot f els n).
Proof.
  revert n p. induction f as [|f IH]; intros n p; simpl; [done|].
  destruct (els !! n) as [e|]; [|done]. simpl.
  destruct (parent e) as [q|]; [|eauto].
  destruct (els !! q) as [qe|]; [|done]. simpl.
  destruct (getChildStartOffset (children qe) n) as [o|]; [|done]. simpl.
  destruct (getPath f els q) as [pp|] eqn:Hq; [|done]. intros _. by eapply IH.
Qed.

Lemma getPath_det f f' els n p p' :
  getPath f els n = Some p → getPath f' els n = Some p' → p = p'.
Proof.
  intros H H'.
  apply (getPath_mono _ (f `max` f')) in H; [|lia].
  apply (getPath_mono _ (f `max` f')) in H'; [|lia]. congruence.
Qed.

(** One step of the climb: the path of an element with a parent is the
    parent's path followed by the element's start offset. *)
Lemma getPath_parent f els n e q p :
  getPath (S f) els n = Some p → els !! n = Some e → parent e = Some q →
  ∃ qe o pp, els !! q = Some qe
    ∧ getChildStartOffset (children qe) n = Some o
    ∧ getPath f els q = Some pp
    ∧ p = pp ++ [o].
Proof.
  intros H He Hq.
  simpl in H. rewrite He in H. simpl in H. rewrite Hq in H.
  destruct (els !! q) as [qe|] eqn:Hqe; [|done]. simpl in H.
  destruct (getChildStartOffset (children qe) n) as [o|] eqn:Ho; [|done].
  simpl in H.
  destruct (getPath f els q) as [pp|] eqn:Hpp; [|done]. injection H as <-.
  by exists qe, o, pp.
Qed.

Lemma getPath_child f els n e q qe o pp :
  els !! n = Some e → parent e = Some q → els !! q = Some qe →
  getChildStartOffset (children qe) n = Some o → getPath f els q = Some pp →
  getPath (S f) els n = Some (pp ++ [o]).
Proof.
  intros He Hq Hqe Ho Hpp. simpl. rewrite He. simpl. rewrite Hq, Hqe. simpl.
  rewrite Ho. simpl. by rewrite Hpp.
Qed.

Lemma getRoot_child f els n e q :
  els !! n = Some e → parent e = Some q →
  getRoot (S f) els n = getRoot f els q.
Proof. intros He Hq. simpl. rewrite He. simpl. by rewrite Hq. Qed.

(** An element whose path can be computed is not its own parent. *)
Lemma getPath_parent_ne f els n e q p :
  getPath f els n = Some p → els !! n = Some e → parent e = Some q → q ≠ n.
Proof.
  intros H He Hq ->. destruct f as [|f]; [done|].
  destruct (getPath_parent _ _ _ _ _ _ H He Hq) as (qe & o & pp & _ & _ & Hpp & ->).
  pose proof (getPath_det _ _ _ _ _ _ H Hpp) as Heq.
  apply (f_equal length) in Heq. rewrite length_app in Heq. simpl in Heq. lia.
Qed.

Lemma descend_app els r offs offs' :
  descend els r (offs ++ offs') = descend els r offs ≫= λ m, descend els m offs'.
Proof.
  revert r. induction offs as [|o offs IH]; intros r; simpl; [done|].
  destruct (els !! r) as [e|]; [|done]. simpl.
  destruct (childAtOffset (children e) o) as [[c|]|]; auto.
Qed.

(** Climbing and walking down agree: the walk from the root of an element
    along its path ends at the element. *)
Lemma getPath_descend f els n p r :
  getPath f els n = Some p → getRoot f els n = Some r → descend els r p = Some n.
Proof.
  revert n p. induction f as [|f IH]; intros n p; simpl; [done|].
  destruct (els !! n) as [e|]; [|done]. simpl.
  destruct (parent e) as [q|]; [|by intros [= <-] [= <-]].
  destruct (els !! q) as [qe|] eqn:Hqe; [|done]. simpl.
  destruct (getChildStartOffset (children qe) n) as [o|] eqn:Ho; [|done]. simpl.
  destruct (getPath f els q) as [pp|] eqn:Hq; [|done]. intros [= <-] Hr.
  rewrite descend_app, (IH q pp Hq Hr). simpl. rewrite Hqe. simpl.
  by rewrite (getChildStartOffset_childAtOffset _ _ _ Ho).
Qed.

(** *** Climbs that a change of the store leaves alone

    The store [els'] differs from [els] in the children of [q] and at the
    reference [c], which is new.  Elements that are not below [q] keep
    their path and their root. *)
Section Frame.

Variables (els els' : gmap ref Element) (q c : ref) (pq : list nat) (F : nat).
Hypothesis c_new : els !! c = None.
Hypothesis q_path : getPath F els q = Some pq.
Hypothesis others_kept : ∀ n, n ≠ q → n ≠ c → els' !! n = els !! n.
Hypothesis q_parent_kept :
  ∀ qe, els !! q = Some qe → ∃ qe', els' !! q = Some qe' ∧ parent qe' = parent qe.

Lemma frame_lookup n e :
  els !! n = Some e → ∃ e', els' !! n = Some e' ∧ parent e' = parent e.
Proof using c_new others_kept q_parent_kept.
  intros He. destruct (decide (n = q)) as [->|Hnq]; [by apply q_parent_kept|].
  exists e. split; [|done]. rewrite others_kept; [done..|]. congruence.
Qed.

Lemma frame_climb f n p :
  getPath f els n = Some p → length p ≤ length pq →
  getPath f els' n = Some p ∧ getRoot f els' n = getRoot f els n.
Proof using c_new q_path others_kept q_parent_kept.
  revert n p. induction f as [|f IH]; intros n p H Hlen; [done|].
  simpl in H |- *.
  destruct (els !! n) as [e|] eqn:He; [|done]. simpl in H |- *.
  destruct (frame_lookup n e He) as (e' & -> & Hpar). simpl. rewrite Hpar.
  destruct (parent e) as [m|] eqn:Hm; [|done].
  destruct (els !! m) as [me|] eqn:Hme; [|done]. simpl in H.
  destruct (getChildStartOffset (children me) n) as [o|] eqn:Ho; [|done].
  simpl in H.
  destruct (getPath f els m) as [pp|] eqn:Hpp; [|done]. injection H as <-.
  rewrite length_app in Hlen. simpl in Hlen.
  assert (m ≠ q) as Hmq.
  { intros ->. pose proof (getPath_det _ _ _ _ _ _ Hpp q_path) as ->. lia. }
  assert (m ≠ c) as Hmc by congruence.
  rewrite (others_kept m Hmq Hmc), Hme. simpl. rewrite Ho. simpl.
  destruct (IH m pp Hpp) as [-> ->]; [lia|]. done.
Qed.

End Frame.

(** ** Running the collaborators *)

Lemma new_Delta_run c w :
  new_Delta c w =
    (Return (fresh (dom (deltaStore w))),
     setDeltaStore (insert (fresh (dom (deltaStore w))) (mkDelta c [] None)) w).
Proof. done. Qed.

Lemma fresh_lookup {A} (m : gmap ref A) : m !! fresh (dom m) = None.
Proof. apply not_elem_of_dom, is_fresh. Qed.

(** Applying an operation changes the tree and the document only; it
    either fails with the world untouched or advances the version by one
    and records the operation. *)
Lemma Document_applyOperation_run op w :
  baseVersion op = version (document w) →
  Document_applyOperation op w =
    match execute (kind op) (elementStore w) with
    | Some els' =>
        (Return tt,
         mkWorld els' (deltaStore w) (batchStore w)
           (mkDocument (S (version (document w))) (history (document w) ++ [op])))
    | None => (Throw InvalidLocation, w)
    end.
Proof.
  intros Hv. unfold Document_applyOperation, mbind, M_bind, gets. simpl.
  rewrite decide_True by done. by destruct (execute _ _).
Qed.

(** The version hypothesis of the specification: a successful application
    increments the version by exactly one. *)
Lemma Document_applyOperation_version op w w' :
  Document_applyOperation op w = (Return tt, w') →
  version (document w') = S (version (document w))
  ∧ history (document w') = history (document w) ++ [op]
  ∧ baseVersion op = version (document w).
Proof.
  unfold Document_applyOperation, mbind, M_bind, gets. simpl.
  destruct (decide _) as [Hv|]; [|done].
  destruct (execute _ _); simpl; [|done]. by intros [= <-].
Qed.

Lemma map_size_alter {A} (f : A → A) (m : gmap ref A) i :
  size (alter f i m) = size m.
Proof. rewrite <- !(size_dom (D := gset nat)). by rewrite dom_alter_L. Qed.

Lemma createFromParentAndOffset_climb els f q o r pp :
  getRoot f els q = Some r → getPath f els q = Some pp → f ≤ climbFuel els →
  createFromParentAndOffset els q o = Some (mkPosition r (pp ++ [o])).
Proof.
  intros Hr Hp Hf. unfold createFromParentAndOffset.
  rewrite (getRoot_mono _ _ _ _ _ Hr Hf), (getPath_mono _ _ _ _ _ Hp Hf). done.
Qed.

Lemma createAfter_child els n e q qe o :
  els !! n = Some e → parent e = Some q → els !! q = Some qe →
  getChildStartOffset (children qe) n = Some o →
  createAfter els n = createFromParentAndOffset els q (o + 1).
Proof.
  intros He Hq Hqe Ho. unfold createAfter.
  rewrite He. simpl. rewrite Hq. simpl. rewrite Hqe. simpl. by rewrite Ho.
Qed.

(** ** The insertion of the copy

    The element [e] has parent [q] and a computable path.  The copy [c]
    is a new, empty element.  The facts below follow the module from the
    creation of the insert operation to the creation of the target
    position of the move. *)
Section InsertPhase.

Variables (els : gmap ref Element) (e q : ref) (eo : Element) (pe : list nat).
Variables (nm : string) (at_ : gmap string string).
Hypothesis e_obj : els !! e = Some eo.
Hypothesis e_parent : parent eo = Some q.
Hypothesis e_path : getPath (climbFuel els) els e = Some pe.

Let c := fresh (dom els).
Let els1 := <[c := mkElement nm at_ [] None]> els.

Lemma insert_phase :
  ∃ r pq o after els2 target qe pre rest,
    getRoot (climbFuel els) els e = Some r
    ∧ pe = pq ++ [o]
    ∧ after = mkPosition r (pq ++ [o + 1])
    ∧ createAfter els e = Some after
    ∧ createAfter els1 e = Some after
    ∧ execute (InsertOperation after [ChildElement c]) els1 = Some els2
    ∧ els2 !! e = Some eo
    ∧ els2 !! c = Some (mkElement nm at_ [] (Some q))
    ∧ Position_parent els2 after = Some q
    ∧ createFromParentAndOffset els2 c 0 = Some target
    ∧ Position_parent els2 target = Some c
    ∧ Position_offset target = 0
    ∧ els !! q = Some qe
    ∧ children qe = pre ++ ChildElement e :: rest
    ∧ els2 !! q =
        Some (set_children (pre ++ ChildElement e :: ChildElement c :: rest) qe)
    ∧ getPath (climbFuel els2) els2 e = Some pe
    ∧ getRoot (climbFuel els2) els2 e = Some r.
Proof using e_obj e_parent e_path.
  destruct (getPath_parent _ _ _ _ _ _ e_path e_obj e_parent)
    as (qe & o & pq & Hqe & Ho & Hpq & ->).
  destruct (getPath_getRoot _ _ _ _ Hpq) as [r Hr].
  assert (els !! c = None) as Hc by apply fresh_lookup.
  assert (c ≠ q) as Hcq by congruence.
  assert (c ≠ e) as Hce by congruence.
  assert (q ≠ e) as Hqe_ne by (by eapply getPath_parent_ne).
  assert (getRoot (climbFuel els) els e = Some r) as Hre.
  { unfold climbFuel. by erewrite getRoot_child. }
  (* the store with the new element *)
  assert (getPath (size els) els1 q = Some pq
          ∧ getRoot (size els) els1 q = Some r) as [Hpq1 Hr1].
  { rewrite <- Hr. apply (frame_climb els els1 q c pq (size els)); try done.
    - intros n _ Hn. subst els1. by rewrite lookup_insert_ne.
    - intros qe' Hqe'. exists qe'. subst els1. by rewrite lookup_insert_ne. }
  assert (size els ≤ climbFuel els) as Hfuel by (unfold climbFuel; lia).
  assert (size els ≤ climbFuel els1) as Hfuel1.
  { unfold climbFuel. subst els1. rewrite map_size_insert_None by done. lia. }
  assert (els1 !! e = Some eo) as He1 by (subst els1; by rewrite lookup_insert_ne).
  assert (els1 !! q = Some qe) as Hq1 by (subst els1; by rewrite lookup_insert_ne).
  set (after := mkPosition r (pq ++ [o + 1])).
  assert (createAfter els e = Some after) as Hafter.
  { rewrite (createAfter_child _ _ _ _ _ _ e_obj e_parent Hqe Ho).
    by eapply createFromParentAndOffset_climb. }
  assert (createAfter els1 e = Some after) as Hafter1.
  { rewrite (createAfter_child _ _ _ _ _ _ He1 e_parent Hq1 Ho).
    by eapply createFromParentAndOffset_climb. }
  (* the insertion *)
  destruct (splitChildren_after_child _ _ _ Ho) as (pre & rest & Hsplit & Hcs & Hb).
  set (qe2 := set_children ((pre ++ [ChildElement e]) ++ [ChildElement c] ++ rest) qe).
  set (els2 := attach q [ChildElement c] (<[q := qe2]> els1)).
  assert (Position_parent els1 after = Some q) as Hpar1.
  { unfold Position_parent, after. simpl. rewrite removelast_last.
    by eapply getPath_descend. }
  assert (Position_offset after = o + 1) as Hoff.
  { unfold Position_offset, after. simpl. by rewrite last_last. }
  assert (execute (InsertOperation after [ChildElement c]) els1 = Some els2) as Hexec.
  { unfold execute. rewrite Hpar1. simpl. rewrite Hq1. simpl.
    rewrite Hoff, Hsplit. done. }
  assert (els2 !! q = Some qe2) as Hq2.
  { subst els2. simpl. rewrite lookup_alter_ne by done. by rewrite lookup_insert_eq. }
  assert (els2 !! c = Some (mkElement nm at_ [] (Some q))) as Hc2.
  { subst els2. simpl. rewrite lookup_alter_eq, lookup_insert_ne by done.
    subst els1. by rewrite lookup_insert_eq. }
  assert (∀ n, n ≠ q → n ≠ c → els2 !! n = els !! n) as Hothers.
  { intros n Hnq Hnc. subst els2 els1. simpl.
    rewrite lookup_alter_ne by done. by rewrite !lookup_insert_ne. }
  assert (getPath (size els) els2 q = Some pq
          ∧ getRoot (size els) els2 q = Some r) as [Hpq2 Hr2].
  { rewrite <- Hr. apply (frame_climb els els2 q c pq (size els)); try done.
    intros qe' Hqe'. exists qe2. split; [done|]. by simplify_eq. }
  assert (S (size els) ≤ climbFuel els2) as Hfuel2.
  { unfold climbFuel. subst els2 els1. simpl. rewrite map_size_alter.
    rewrite map_size_insert_Some by (by rewrite lookup_insert_ne).
    rewrite map_size_insert_None by done. lia. }
  destruct (getChildStartOffset_elem_of (children qe2) c) as [k Hk].
  { subst qe2. simpl. set_solver. }
  assert (getPath (S (size els)) els2 c = Some (pq ++ [k])) as Hpc.
  { by eapply getPath_child. }
  assert (getRoot (S (size els)) els2 c = Some r) as Hrc.
  { by erewrite getRoot_child. }
  assert (getChildStartOffset (children qe2) e = Some o) as Ho2.
  { subst qe2. simpl. by apply getChildStartOffset_app_l. }
  exists r, pq, o, after, els2, (mkPosition r ((pq ++ [k]) ++ [0])), qe, pre, rest.
  split_and!; try done.
  - rewrite Hothers by done. done.
  - unfold Position_parent, after. simpl. rewrite removelast_last.
    eapply getPath_descend; [done|]. eapply getRoot_mono; [done|]. lia.
  - by eapply createFromParentAndOffset_climb.
  - unfold Position_parent. simpl. rewrite removelast_last.
    by eapply getPath_descend.
  - unfold Position_offset. simpl. by rewrite last_last.
  - rewrite Hq2. subst qe2. by rewrite <- app_assoc.
  - apply (getPath_mono (S (size els))); [|done].
    eapply getPath_child; [|done..]. by rewrite Hothers.
  - apply (getRoot_mono (S (size els))); [|done].
    erewrite getRoot_child; [done| |done]. by rewrite Hothers.
Qed.

End InsertPhase.

(** ** The runs of [split]

    Every run of [split], as a decision tree over the stores of the world
    in which it is called: which step completes it and which world it
    leaves. *)

Local Arguments execute : simpl never.
Local Arguments createAfter : simpl never.
Local Arguments createFromParentAndOffset : simpl never.
Local Arguments getPath : simpl never.
Local Arguments getRoot : simpl never.

Lemma split_run this position w :
  let els := elementStore w in
  let v := version (document w) in
  let h := history (document w) in
  let d := fresh (dom (deltaStore w)) in
  let c := fresh (dom els) in
  let ds ops := <[d := mkDelta SplitDelta ops (Some this)]> (deltaStore w) in
  split this position w =
    match batchStore w !! this with
    | None =>
        (Throw TypeError,
         mkWorld els (<[d := mkDelta SplitDelta [] None]> (deltaStore w))
           (batchStore w) (document w))
    | Some b =>
      let bs := <[this := mkBatch (deltas b ++ [d])]> (batchStore w) in
      match Position_parent els position with
      | None => (Throw InvalidLocation, mkWorld els (ds []) bs (document w))
      | Some e =>
        match els !! e with
        | None => (Throw TypeError, mkWorld els (ds []) bs (document w))
        | Some eo =>
          match parent eo with
          | None => (Throw batch_split_root, mkWorld els (ds []) bs (document w))
          | Some _ =>
            let els1 := <[c := mkElement (name eo) (attrs eo) [] None]> els in
            match createAfter els1 e with
            | None => (Throw InvalidLocation, mkWorld els1 (ds []) bs (document w))
            | Some after =>
              let ins := new_InsertOperation after c v in
              match execute (kind ins) els1 with
              | None => (Throw InvalidLocation, mkWorld els1 (ds [ins]) bs (document w))
              | Some els2 =>
                let doc1 := mkDocument (S v) (h ++ [ins]) in
                match els2 !! e with
                | None => (Throw TypeError, mkWorld els2 (ds [ins]) bs doc1)
                | Some eo' =>
                  match createFromParentAndOffset els2 c 0 with
                  | None => (Throw InvalidLocation, mkWorld els2 (ds [ins]) bs doc1)
                  | Some target =>
                    let mv := set_isSticky true
                      (new_MoveOperation position
                         (Z.of_nat (maxOffset eo') - Z.of_nat (Position_offset position))
                         target (S v)) in
                    match execute (kind mv) els2 with
                    | None =>
                        (Throw InvalidLocation, mkWorld els2 (ds [ins; mv]) bs doc1)
                    | Some els3 =>
                        (Return this,
                         mkWorld els3 (ds [ins; mv]) bs
                           (mkDocument (S (S v)) (h ++ [ins; mv])))
                    end
                  end
                end
              end
            end
          end
        end
      end
    end.
Proof.
  intros els v h d c ds. subst els v h d c ds.
  unfold split, Batch_addDelta, Delta_addOperation, Document_applyOperation,
    getBatch, getDelta, getElement, new_Delta, new_Element, gets, modify.
  unfold mbind, M_bind, mret, M_ret.
  unfold setElementStore, setDeltaStore, setBatchStore, setDocument. simpl.
  destruct (batchStore w !! this) as [b|]; simpl; [|done].
  rewrite lookup_insert_eq. simpl. rewrite insert_insert_eq.
  destruct (Position_parent (elementStore w) position) as [e|]; simpl; [|done].
  destruct (elementStore w !! e) as [eo|]; simpl; [|done].
  destruct (parent eo) as [q|]; simpl; [|done].
  destruct (createAfter _ e) as [after|]; simpl; [|done].
  rewrite lookup_insert_eq. simpl. rewrite insert_insert_eq.
  rewrite decide_True by done.
  destruct (execute _ _) as [els2|]; simpl; [|done].
  destruct (els2 !! e) as [eo'|]; simpl; [|done].
  destruct (createFromParentAndOffset els2 _ 0) as [target|]; simpl; [|done].
  rewrite lookup_insert_eq. simpl. rewrite insert_insert_eq.
  rewrite decide_True by done.
  destruct (execute _ _) as [els3|]; simpl; [|done].
  by rewrite <- app_assoc.
Qed.

(** The run on a position whose parent is a root: the delta has been
    created and attached to the batch when the check throws. *)
Lemma split_root_run w this position b e eo :
  batchStore w !! this = Some b →
  Position_parent (elementStore w) position = Some e →
  elementStore w !! e = Some eo →
  parent eo = None →
  let d := fresh (dom (deltaStore w)) in
  split this position w =
    (Throw batch_split_root,
     mkWorld (elementStore w)
       (<[d := mkDelta SplitDelta [] (Some this)]> (deltaStore w))
       (<[this := mkBatch (deltas b ++ [d])]> (batchStore w))
       (document w)).
Proof.
  intros Hb He Heo Hp d. rewrite split_run. simpl.
  by rewrite Hb, He, Heo, Hp.
Qed.

(** The run on a position in an attached element that has a parent: it
    reaches the application of the move operation, with both operations
    in the delta. *)
Lemma split_valid_run w this position b e eo q :
  batchStore w !! this = Some b →
  Position_parent (elementStore w) position = Some e →
  elementStore w !! e = Some eo →
  parent eo = Some q →
  attached (elementStore w) e →
  let els := elementStore w in
  let v := version (document w) in
  let h := history (document w) in
  let d := fresh (dom (deltaStore w)) in
  let c := fresh (dom els) in
  let els1 := <[c := mkElement (name eo) (attrs eo) [] None]> els in
  ∃ r pq o after els2 target qe pre rest,
    getRoot (climbFuel els) els e = Some r
    ∧ getPath (climbFuel els) els e = Some (pq ++ [o])
    ∧ after = mkPosition r (pq ++ [o + 1])
    ∧ createAfter els e = Some after
    ∧ execute (InsertOperation after [ChildElement c]) els1 = Some els2
    ∧ els2 !! e = Some eo
    ∧ els2 !! c = Some (mkElement (name eo) (attrs eo) [] (Some q))
    ∧ Position_parent els2 after = Some q
    ∧ Position_parent els2 target = Some c
    ∧ Position_offset target = 0
    ∧ els !! q = Some qe
    ∧ children qe = pre ++ ChildElement e :: rest
    ∧ els2 !! q =
        Some (set_children (pre ++ ChildElement e :: ChildElement c :: rest) qe)
    ∧ getPath (climbFuel els2) els2 e = Some (pq ++ [o])
    ∧ getRoot (climbFuel els2) els2 e = Some r
    ∧ let ins := new_InsertOperation after c v in
      let mv := set_isSticky true
        (new_MoveOperation position
           (Z.of_nat (maxOffset eo) - Z.of_nat (Position_offset position))
           target (S v)) in
      let ds := <[d := mkDelta SplitDelta [ins; mv] (Some this)]> (deltaStore w) in
      let bs := <[this := mkBatch (deltas b ++ [d])]> (batchStore w) in
      split this position w =
        match execute (kind mv) els2 with
        | None =>
            (Throw InvalidLocation, mkWorld els2 ds bs (mkDocument (S v) (h ++ [ins])))
        | Some els3 =>
            (Return this,
             mkWorld els3 ds bs (mkDocument (S (S v)) (h ++ [ins; mv])))
        end.
Proof.
  intros Hb He Heo Hq [pe Hpe] els v h d c els1.
  destruct (insert_phase els e q eo pe (name eo) (attrs eo) Heo Hq Hpe)
    as (r & pq & o & after & els2 & target & qe & pre & rest
        & Hr & -> & Hafter & Hca & Hca1 & Hex & He2 & Hc2 & Hpa & Htarget
        & Hpt & Hot & Hqe & Hcs & Hq2 & Hpe2 & Hre2).
  exists r, pq, o, after, els2, target, qe, pre, rest. split_and!; try done.
  subst els v h d c els1. rewrite split_run. simpl. rewrite Hb, He, Heo, Hq.
  rewrite Hca1. simpl. rewrite Hex. simpl. rewrite He2, Htarget. done.
Qed.

(** What a run that returns has done. *)
Lemma split_success_inv w this position r w' :
  split this position w = (Return r, w') →
  let v := version (document w) in
  let h := history (document w) in
  let d := fresh (dom (deltaStore w)) in
  let c := fresh (dom (elementStore w)) in
  ∃ b after howMany target els3,
    batchStore w !! this = Some b
    ∧ r = this
    ∧ let ins := new_InsertOperation after c v in
      let mv := set_isSticky true (new_MoveOperation position howMany target (S v)) in
      w' = mkWorld els3
             (<[d := mkDelta SplitDelta [ins; mv] (Some this)]> (deltaStore w))
             (<[this := mkBatch (deltas b ++ [d])]> (batchStore w))
             (mkDocument (S (S v)) (h ++ [ins; mv])).
Proof.
  intros H v h d c. subst v h d c. rewrite split_run in H. simpl in H.
  destruct (batchStore w !! this) as [b|]; [|done].
  destruct (Position_parent _ _) as [e|]; [|done].
  destruct (elementStore w !! e) as [eo|]; [|done].
  destruct (parent eo) as [q|]; [|done].
  destruct (createAfter _ _) as [after|]; [|done].
  destruct (execute _ _) as [els2|]; [|done].
  destruct (els2 !! e) as [eo'|]; [|done].
  destruct (createFromParentAndOffset _ _ _) as [target|]; [|done].
  destruct (execute _ _) as [els3|]; [|done].
  injection H as <- <-. exists b, after. eexists. exists target, els3.
  split_and!; [done..|]. simpl. reflexivity.
Qed.

(** A position made from an attached element with a parent, at an offset
    within the element, is split without an error. *)
Lemma split_succeeds w this position b e eo q :
  batchStore w !! this = Some b →
  elementStore w !! e = Some eo →
  parent eo = Some q →
  createFromParentAndOffset (elementStore w) e (Position_offset position) = Some position →
  Position_offset position ≤ maxOffset eo →
  ∃ w', split this position w = (Return this, w').
Proof.
  intros Hb Heo Hq Hpos Hoff.
  unfold createFromParentAndOffset in Hpos.
  destruct (getRoot (climbFuel (elementStore w)) (elementStore w) e)
    as [r|] eqn:Hr; simpl in Hpos; [|done].
  destruct (getPath (climbFuel (elementStore w)) (elementStore w) e)
    as [pe|] eqn:Hpe; simpl in Hpos; [|done].
  injection Hpos as Hpos.
  assert (Position_parent (elementStore w) position = Some e) as He.
  { rewrite <- Hpos. unfold Position_parent. simpl. rewrite removelast_last.
    by eapply getPath_descend. }
  assert (attached (elementStore w) e) as Hatt by (by exists pe).
  destruct (split_valid_run w this position b e eo q Hb He Heo Hq Hatt)
    as (r' & pq & o & after & els2 & target & qe & pre & rest
        & Hr' & Hpe' & Hafter & Hca & Hex & He2 & Hc2 & Hpa & Hpt & Hot
        & Hqe & Hcs & Hq2 & Hpe2 & Hre2 & Hrun).
  simpl in Hrun. rewrite Hrun.
  assert (r' = r) as -> by congruence.
  assert (pe = pq ++ [o]) as -> by congruence.
  assert (Position_parent els2 position = Some e) as He2'.
  { rewrite <- Hpos. unfold Position_parent. simpl. rewrite removelast_last.
    by eapply getPath_descend. }
  assert (fresh (dom (elementStore w)) ≠ e) as Hce.
  { intros Heq. rewrite <- Heq, fresh_lookup in Heo. done. }
  destruct (splitChildren_is_Some (children eo) (Position_offset position))
    as [[before rest'] Hs1]; [done|].
  destruct (splitChildren_width _ _ _ _ Hs1) as [_ Hw]. fold (maxOffset eo) in Hw.
  destruct (splitChildren_is_Some rest'
              (Z.to_nat (Z.of_nat (maxOffset eo) - Z.of_nat (Position_offset position))))
    as [[moved after'] Hs2]; [lia|].
  unfold execute at 1. rewrite He2', Hpt. simpl. rewrite He2. simpl.
  rewrite option_guard_True by lia.
  rewrite Hs1. simpl. rewrite Hs2. simpl.
  rewrite lookup_insert_ne by done. rewrite Hc2. simpl.
  rewrite decide_False by (intros [? _]; done). simpl.
  rewrite Hot. simpl. eauto.
Qed.

(** Every step a run that returns has taken: the element found at the
    position, the copy made of it, and the two applications that lead
    from the tree with the copy in it to the tree the run leaves. *)
Lemma split_return_inv w this position r w' :
  split this position w = (Return r, w') →
  let els := elementStore w in
  let v := version (document w) in
  let h := history (document w) in
  let d := fresh (dom (deltaStore w)) in
  let c := fresh (dom els) in
  ∃ b e eo q after els2 eo' target,
    batchStore w !! this = Some b
    ∧ r = this
    ∧ Position_parent els position = Some e
    ∧ els !! e = Some eo
    ∧ parent eo = Some q
    ∧ let els1 := <[c := mkElement (name eo) (attrs eo) [] None]> els in
      let ins := new_InsertOperation after c v in
      let mv := set_isSticky true
        (new_MoveOperation position
           (Z.of_nat (maxOffset eo') - Z.of_nat (Position_offset position))
           target (S v)) in
      createAfter els1 e = Some after
      ∧ execute (kind ins) els1 = Some els2
      ∧ els2 !! e = Some eo'
      ∧ createFromParentAndOffset els2 c 0 = Some target
      ∧ execute (kind mv) els2 = Some (elementStore w')
      ∧ w' = mkWorld (elementStore w')
               (<[d := mkDelta SplitDelta [ins; mv] (Some this)]> (deltaStore w))
               (<[this := mkBatch (deltas b ++ [d])]> (batchStore w))
               (mkDocument (S (S v)) (h ++ [ins; mv])).
Proof.
  intros H els v h d c. subst els v h d c. rewrite split_run in H. simpl in H.
  destruct (batchStore w !! this) as [b|]; [|done].
  destruct (Position_parent _ _) as [e|] eqn:He; [|done].
  destruct (elementStore w !! e) as [eo|] eqn:Heo; [|done].
  destruct (parent eo) as [q|] eqn:Hq; [|done].
  destruct (createAfter _ _) as [after|] eqn:Hafter; [|done].
  destruct (execute _ _) as [els2|] eqn:Hex; [|done].
  destruct (els2 !! e) as [eo'|] eqn:He2; [|done].
  destruct (createFromParentAndOffset _ _ _) as [target|] eqn:Htarget; [|done].
  destruct (execute _ els2) as [els3|] eqn:Hex2; [|done].
  injection H as <- <-. exists b, e, eo, q, after, els2, eo', target.
  simpl. split_and!; done.
Qed.

(** ** What an application leaves of an element *)

(** [attach] sets parent back-references and nothing else. *)
Lemma attach_lookup q nodes els n :
  ∃ p, attach q nodes els !! n
       = (λ x, mkElement (name x) (attrs x) (children x) (p x)) <$> els !! n.
Proof.
  revert els. induction nodes as [|[m|data] nodes IH]; intros els; simpl.
  - exists parent. by destruct (els !! n) as [[]|].
  - destruct (IH (alter (λ e, mkElement (name e) (attrs e) (children e) (Some q))
                    m els)) as [p Hp].
    rewrite Hp. destruct (decide (m = n)) as [->|Hne].
    + rewrite lookup_alter_eq.
      exists (λ x, p (mkElement (name x) (attrs x) (children x) (Some q))).
      by destruct (els !! n).
    + rewrite lookup_alter_ne by done. by exists p.
  - apply IH.
Qed.

(** A move to offset 0 of an element [c] without children: afterwards the
    children of [c] are exactly the slots that the move has taken from
    its source, and [c] has the name and the attributes it had. *)
Lemma execute_move_into_empty els source howMany target c co els' :
  execute (MoveOperation source howMany target) els = Some els' →
  Position_parent els target = Some c →
  Position_offset target = 0 →
  els !! c = Some co →
  children co = [] →
  ∃ s se before rest moved after' co',
    Position_parent els source = Some s
    ∧ els !! s = Some se
    ∧ splitChildren (children se) (Position_offset source) = Some (before, rest)
    ∧ splitChildren rest (Z.to_nat howMany) = Some (moved, after')
    ∧ els' !! c = Some co'
    ∧ name co' = name co
    ∧ attrs co' = attrs co
    ∧ children co' = moved.
Proof.
  intros Hex Ht Hot Hc Hcs. unfold execute in Hex.
  destruct (Position_parent els source) as [s|] eqn:Hs; simpl in Hex; [|done].
  rewrite Ht in Hex. simpl in Hex.
  destruct (els !! s) as [se|] eqn:Hse; simpl in Hex; [|done].
  destruct (decide (0 ≤ howMany)%Z) as [Hh|Hh];
    [rewrite (option_guard_True (0 ≤ howMany)%Z) in Hex by done
    |rewrite (option_guard_False (0 ≤ howMany)%Z) in Hex by done; done].
  simpl in Hex.
  destruct (splitChildren (children se) _) as [[before rest]|] eqn:Hs1;
    simpl in Hex; [|done].
  destruct (splitChildren rest _) as [[moved after']|] eqn:Hs2;
    simpl in Hex; [|done].
  rewrite Hot in Hex.
  rewrite decide_False in Hex by (intros [_ ?]; lia). simpl in Hex.
  destruct (decide (s = c)) as [->|Hne].
  - rewrite lookup_insert_eq in Hex. simpl in Hex.
    assert (se = co) as -> by congruence.
    rewrite Hcs in Hs1. simpl in Hs1. case_decide; [|done].
    injection Hs1 as <- <-. simpl in Hs2. case_decide; [|done].
    injection Hs2 as <- <-. simpl in Hex. injection Hex as <-. simpl.
    exists c, co, [], [], [], []. eexists. rewrite Hcs. simpl.
    split_and!;
      first [ done | by rewrite lookup_insert_eq | by case_decide ].
  - rewrite lookup_insert_ne in Hex by done. rewrite Hc in Hex. simpl in Hex.
    rewrite Hcs in Hex. simpl in Hex. injection Hex as <-.
    destruct (attach_lookup c moved
                (<[c := set_children ([] ++ moved ++ []) co]>
                   (<[s := set_children (before ++ after') se]> els)) c) as [p Hp].
    rewrite lookup_insert_eq in Hp. simpl in Hp.
    exists s, se, before, rest, moved, after'. eexists.
    split_and!; first [ done | exact Hp | simpl; apply app_nil_r ].
Qed.

(** ** The split action *)

(** C1.  Splitting at a position whose parent [e] is attached and has a
    parent [q] puts exactly two operations into one new [SplitDelta], in
    this order: an insert operation and a move operation.  The insert
    operation inserts one new element [c] at the position right after [e]
    ([createAfter]: the path of [e] with its last offset plus one).
    Applied to the tree, it makes [c] a child of [q] that has the name and
    the attributes of [e] and no children, and that follows [e] directly
    among the children of [q].

    The tree that the call leaves shows it.  The element [c] is in it,
    with the name and the attributes of [e].  When the application of the
    move operation throws, the tree is the one after the insertion, with
    [c] without children below [q], and the insert operation is the only
    one applied.  When the call returns, the tree is the one after the
    insertion with the move operation applied to it, and the children of
    [c] are exactly the slots that the move operation took from its
    source, so that [c] had none of its own; both operations were
    applied, in this order. *)
Theorem split_constructs_insert_then_move w this position b e eo q :
  batchStore w !! this = Some b →
  Position_parent (elementStore w) position = Some e →
  elementStore w !! e = Some eo →
  parent eo = Some q →
  attached (elementStore w) e →
  let els := elementStore w in
  let d := fresh (dom (deltaStore w)) in
  let c := fresh (dom els) in
  ∃ outcome w' ins mv after els2 qe pre rest co,
    split this position w = (outcome, w')
    ∧ deltaStore w !! d = None
    ∧ deltaStore w' !! d = Some (mkDelta SplitDelta [ins; mv] (Some this))
    ∧ (∀ d', d' ≠ d → deltaStore w' !! d' = deltaStore w !! d')
    ∧ kind ins = InsertOperation after [ChildElement c]
    ∧ els !! c = None
    ∧ createAfter els e = Some after
    ∧ (∃ pq o, getPath (climbFuel els) els e = Some (pq ++ [o])
               ∧ path after = pq ++ [o + 1])
    ∧ execute (kind ins) (<[c := mkElement (name eo) (attrs eo) [] None]> els)
        = Some els2
    ∧ els2 !! c = Some (mkElement (name eo) (attrs eo) [] (Some q))
    ∧ els !! q = Some qe
    ∧ children qe = pre ++ ChildElement e :: rest
    ∧ els2 !! q =
        Some (set_children (pre ++ ChildElement e :: ChildElement c :: rest) qe)
    ∧ (∃ source howMany target, kind mv = MoveOperation source howMany target)
    ∧ elementStore w' !! c = Some co
    ∧ name co = name eo
    ∧ attrs co = attrs eo
    ∧ (outcome = Throw InvalidLocation
       ∧ elementStore w' = els2
       ∧ children co = []
       ∧ parent co = Some q
       ∧ history (document w') = history (document w) ++ [ins]
       ∨ outcome = Return this
         ∧ execute (kind mv) els2 = Some (elementStore w')
         ∧ history (document w') = history (document w) ++ [ins; mv]
         ∧ ∃ howMany target s se before taken left,
             kind mv = MoveOperation position howMany target
             ∧ Position_parent els2 position = Some s
             ∧ els2 !! s = Some se
             ∧ splitChildren (children se) (Position_offset position)
                 = Some (before, taken)
             ∧ splitChildren taken (Z.to_nat howMany) = Some (children co, left)).
Proof.
  intros Hb He Heo Hq Hatt els d c.
  destruct (split_valid_run w this position b e eo q Hb He Heo Hq Hatt)
    as (r & pq & o & after & els2 & target & qe & pre & rest
        & Hr & Hpe & Hafter & Hca & Hex & He2 & Hc2 & Hpa & Hpt & Hot
        & Hqe & Hcs & Hq2 & Hpe2 & Hre2 & Hrun).
  simpl in Hrun.
  match type of Hrun with _ = match ?x with _ => _ end =>
    destruct x as [els3|] eqn:Hmove end.
  - destruct (execute_move_into_empty _ _ _ _ _ _ _ Hmove Hpt Hot Hc2 eq_refl)
      as (s & se & before & taken & moved & left' & co
          & Hs & Hse & Hs1 & Hs2 & Hc3 & Hname & Hattrs & Hmoved).
    eexists _, _, _, _, after, els2, qe, pre, rest, co.
    split; [exact Hrun|]. simpl. split_and!;
      first [ done
            | apply fresh_lookup
            | by rewrite lookup_insert_eq
            | by intros d' Hd'; rewrite lookup_insert_ne
            | by exists pq, o; rewrite Hafter
            | by eauto
            | idtac ].
    right. split_and!; [done..|].
    eexists _, target, s, se, before, taken, left'.
    split; [reflexivity|]. rewrite Hmoved. done.
  - eexists _, _, _, _, after, els2, qe, pre, rest, _.
    split; [exact Hrun|]. simpl. split_and!;
      first [ exact Hc2
            | done
            | apply fresh_lookup
            | by rewrite lookup_insert_eq
            | by intros d' Hd'; rewrite lookup_insert_ne
            | by exists pq, o; rewrite Hafter
            | by eauto
            | idtac ].
    left. done.
Qed.

Lemma split_constructs_insert_then_move_witness :
  ∃ outcome w' ins mv co,
    split 7 Examples.P Examples.w0 = (outcome, w')
    ∧ deltaStore w' !! 0 = Some (mkDelta SplitDelta [ins; mv] (Some 7))
    ∧ kind ins = InsertOperation (mkPosition 0 [1]) [ChildElement 4]
    ∧ elementStore w' !! 4 = Some co
    ∧ name co = "p"
    ∧ attrs co = Examples.p_attrs.
Proof.
  destruct (split_constructs_insert_then_move Examples.w0 7 Examples.P
              (mkBatch []) 1
              (mkElement "p" Examples.p_attrs [ChildText "abcd"; ChildElement 2] (Some 0))
              0)
    as (outcome & w' & ins & mv & after & els2 & qe & pre & rest & co
        & Hrun & _ & Hd & _ & Hkind & _ & Hca & _ & _ & _ & _ & _ & _ & _
        & Hco & Hname & Hattrs & _).
  - vm_compute; reflexivity.
  - vm_compute; reflexivity.
  - vm_compute; reflexivity.
  - reflexivity.
  - exists [0]. vm_compute; reflexivity.
  - exists outcome, w', ins, mv, co. split; [exact Hrun|]. split; [exact Hd|].
    vm_compute in Hca. injection Hca as <-.
    split; [exact Hkind|]. split; [exact Hco|]. split; [exact Hname|exact Hattrs].
Defined.

(** C2.  Splitting at a position whose parent is a root (an element
    without parent) throws the [batch-split-root] error and leaves the
    document as it was: its version, its history of applied operations
    and its tree are unchanged. *)
Theorem split_root_rejected w this position b e eo :
  batchStore w !! this = Some b →
  Position_parent (elementStore w) position = Some e →
  elementStore w !! e = Some eo →
  parent eo = None →
  ∃ w',
    split this position w = (Throw batch_split_root, w')
    ∧ batch_split_root
        = CKEditorError "batch-split-root: Root element can not be split."
    ∧ document w' = document w
    ∧ version (document w') = version (document w)
    ∧ history (document w') = history (document w)
    ∧ elementStore w' = elementStore w.
Proof.
  intros Hb He Heo Hp. eexists.
  split; [exact (split_root_run _ _ _ _ _ _ Hb He Heo Hp)|]. done.
Qed.

Lemma split_root_rejected_witness :
  ∃ w',
    split 7 Examples.Proot Examples.w0 = (Throw batch_split_root, w')
    ∧ document w' = mkDocument 4 []
    ∧ elementStore w' = Examples.els0.
Proof.
  destruct (split_root_rejected Examples.w0 7 Examples.Proot (mkBatch []) 0
              (mkElement "$root" ∅ [ChildElement 1; ChildElement 3] None))
    as (w' & Hrun & _ & Hdoc & _ & _ & Hels).
  - vm_compute; reflexivity.
  - vm_compute; reflexivity.
  - vm_compute; reflexivity.
  - reflexivity.
  - exists w'. split; [exact Hrun|]. split; [exact Hdoc|exact Hels].
Defined.

(** C3.  In a split at a position whose parent [e] is attached and has a
    parent, the move operation, the second of the delta, has the split
    position as its source, moves [maxOffset] of [e] minus the offset of
    the position slots, which are all the slots of [e] from that offset to
    the end, has as target a position of offset 0 whose parent, in the
    tree after the insertion, is the inserted copy, and is sticky.  The
    operation applied and recorded in the history is this sticky one. *)
Theorem split_move_operation w this position b e eo q :
  batchStore w !! this = Some b →
  Position_parent (elementStore w) position = Some e →
  elementStore w !! e = Some eo →
  parent eo = Some q →
  attached (elementStore w) e →
  let els := elementStore w in
  let d := fresh (dom (deltaStore w)) in
  let c := fresh (dom els) in
  ∃ outcome w' ins mv after target els2,
    split this position w = (outcome, w')
    ∧ deltaStore w' !! d = Some (mkDelta SplitDelta [ins; mv] (Some this))
    ∧ kind mv =
        MoveOperation position
          (Z.of_nat (maxOffset eo) - Z.of_nat (Position_offset position)) target
    ∧ isSticky mv = true
    ∧ (Position_offset position ≤ maxOffset eo →
       ∃ before rest,
         splitChildren (children eo) (Position_offset position) = Some (before, rest)
         ∧ (Z.of_nat (maxOffset eo) - Z.of_nat (Position_offset position))%Z
             = Z.of_nat (sum_list (offsetSize <$> rest)))
    ∧ kind ins = InsertOperation after [ChildElement c]
    ∧ execute (kind ins) (<[c := mkElement (name eo) (attrs eo) [] None]> els)
        = Some els2
    ∧ Position_parent els2 target = Some c
    ∧ Position_offset target = 0
    ∧ (outcome = Return this
       ∧ history (document w') = history (document w) ++ [ins; mv]
       ∨ outcome = Throw InvalidLocation
         ∧ history (document w') = history (document w) ++ [ins]).
Proof.
  intros Hb He Heo Hq Hatt els d c.
  destruct (split_valid_run w this position b e eo q Hb He Heo Hq Hatt)
    as (r & pq & o & after & els2 & target & qe & pre & rest
        & Hr & Hpe & Hafter & Hca & Hex & He2 & Hc2 & Hpa & Hpt & Hot
        & Hqe & Hcs & Hq2 & Hpe2 & Hre2 & Hrun).
  simpl in Hrun.
  assert (Position_offset position ≤ maxOffset eo →
    ∃ before rest',
      splitChildren (children eo) (Position_offset position) = Some (before, rest')
      ∧ (Z.of_nat (maxOffset eo) - Z.of_nat (Position_offset position))%Z
          = Z.of_nat (sum_list (offsetSize <$> rest'))) as Hwidth.
  { intros Hle.
    destruct (splitChildren_is_Some (children eo) (Position_offset position))
      as [[before rest'] Hs]; [done|].
    exists before, rest'. split; [done|].
    destruct (splitChildren_width _ _ _ _ Hs) as [_ Hw]. unfold maxOffset. lia. }
  match type of Hrun with _ = match ?x with _ => _ end => destruct x end;
    (eexists _, _, _, _, after, target, els2;
     split; [exact Hrun|]; simpl; split_and!;
     first [ done
           | by rewrite lookup_insert_eq
           | by left
           | by right ]).
Qed.

Lemma split_move_operation_witness :
  ∃ w' ins mv,
    split 7 Examples.P Examples.w0 = (Return 7, w')
    ∧ deltaStore w' !! 0 = Some (mkDelta SplitDelta [ins; mv] (Some 7))
    ∧ mv = mkOperation (MoveOperation Examples.P 3 (mkPosition 0 [1; 0])) 5 true.
Proof.
  destruct (split_move_operation Examples.w0 7 Examples.P
              (mkBatch []) 1
              (mkElement "p" Examples.p_attrs [ChildText "abcd"; ChildElement 2] (Some 0))
              0)
    as (outcome & w' & ins & mv & after & target & els2
        & Hrun & Hd & _).
  - vm_compute; reflexivity.
  - vm_compute; reflexivity.
  - vm_compute; reflexivity.
  - reflexivity.
  - exists [0]. vm_compute; reflexivity.
  - vm_compute in Hrun. injection Hrun as <- <-.
    vm_compute in Hd. injection Hd as <- <-.
    eexists _, _, _. split; [vm_compute; reflexivity|].
    split; [vm_compute; reflexivity|]. reflexivity.
Defined.



(** C8.  Every call of [split] that returns has returned the batch it was
    called on, has created exactly one delta, a [SplitDelta], has
    appended it, and nothing else, to the deltas of that batch, and has
    applied the operations of that delta, and no others, to the
    document.  The delta is not empty: its operations are the insert
    operation of the new element [c] and the move operation from the
    split position, and the tree that the call leaves is the tree at the
    call, with [c] in it, after the insert operation and then the move
    operation.  The history has grown by these two operations and the
    version by two.  The other deltas and batches are as before. *)
Theorem split_one_delta_chainable w this position r w' :
  split this position w = (Return r, w') →
  let d := fresh (dom (deltaStore w)) in
  let c := fresh (dom (elementStore w)) in
  ∃ b ops ins mv e eo after howMany target els2,
    r = this
    ∧ batchStore w !! this = Some b
    ∧ batchStore w' = <[this := mkBatch (deltas b ++ [d])]> (batchStore w)
    ∧ deltaStore w !! d = None
    ∧ deltaStore w' = <[d := mkDelta SplitDelta ops (Some this)]> (deltaStore w)
    ∧ history (document w') = history (document w) ++ ops
    ∧ version (document w') = version (document w) + length ops
    ∧ ops = [ins; mv]
    ∧ kind ins = InsertOperation after [ChildElement c]
    ∧ kind mv = MoveOperation position howMany target
    ∧ Position_parent (elementStore w) position = Some e
    ∧ elementStore w !! e = Some eo
    ∧ execute (kind ins)
        (<[c := mkElement (name eo) (attrs eo) [] None]> (elementStore w))
        = Some els2
    ∧ execute (kind mv) els2 = Some (elementStore w').
Proof.
  intros H d c.
  destruct (split_return_inv _ _ _ _ _ H)
    as (b & e & eo & q & after & els2 & eo' & target
        & Hb & -> & He & Heo & Hq & Hafter & Hex & He2 & Htarget & Hex2 & Hw').
  rewrite Hw'. simpl. exists b. eexists _, _, _, e, eo, after, _, target, els2.
  split_and!; first [ done | apply fresh_lookup | simpl; lia ].
Qed.

Lemma split_one_delta_chainable_witness :
  ∃ w' ops,
    split 7 Examples.P Examples.w0 = (Return 7, w')
    ∧ batchStore w' !! 7 = Some (mkBatch [0])
    ∧ deltaStore w' = {[ 0 := mkDelta SplitDelta ops (Some 7) ]}
    ∧ length ops = 2
    ∧ history (document w') = ops.
Proof.
  destruct (split_one_delta_chainable Examples.w0 7 Examples.P 7
              (snd (split 7 Examples.P Examples.w0)))
    as (b & ops & ins & mv & e & eo & after & howMany & target & els2
        & _ & Hb & Hbs & _ & Hds & Hh & _ & Hops & _).
  - vm_compute; reflexivity.
  - exists (snd (split 7 Examples.P Examples.w0)), ops.
    split; [vm_compute; reflexivity|].
    vm_compute in Hb. injection Hb as <-.
    split; [rewrite Hbs; vm_compute; reflexivity|].
    split; [exact Hds|]. split; [by rewrite Hops|exact Hh].
Defined.

(** C10.  When [split] throws because the parent of the position is a
    root, the batch has nevertheless been changed: a new [SplitDelta]
    without operations, with the batch as its owner, has been appended to
    the deltas of the batch, because the delta is added before the parent
    is checked.  The document, its tree included, is as before. *)
Theorem split_root_mutates_batch w this position b e eo :
  batchStore w !! this = Some b →
  Position_parent (elementStore w) position = Some e →
  elementStore w !! e = Some eo →
  parent eo = None →
  let d := fresh (dom (deltaStore w)) in
  ∃ w',
    split this position w = (Throw batch_split_root, w')
    ∧ deltaStore w !! d = None
    ∧ deltaStore w' !! d = Some (mkDelta SplitDelta [] (Some this))
    ∧ batchStore w' !! this = Some (mkBatch (deltas b ++ [d]))
    ∧ batchStore w' !! this ≠ batchStore w !! this
    ∧ document w' = document w
    ∧ elementStore w' = elementStore w.
Proof.
  intros Hb He Heo Hp d. eexists.
  split; [exact (split_root_run _ _ _ _ _ _ Hb He Heo Hp)|]. simpl.
  rewrite !lookup_insert_eq, Hb. split_and!; try done; [apply fresh_lookup|].
  intros [= Heq]. apply (f_equal (length ∘ deltas)) in Heq. simpl in Heq.
  rewrite length_app in Heq. simpl in Heq. lia.
Qed.

Lemma split_root_mutates_batch_witness :
  ∃ w',
    split 7 Examples.Proot Examples.w0 = (Throw batch_split_root, w')
    ∧ deltaStore w' !! 0 = Some (mkDelta SplitDelta [] (Some 7))
    ∧ batchStore w' !! 7 = Some (mkBatch [0]).
Proof.
  destruct (split_root_mutates_batch Examples.w0 7 Examples.Proot (mkBatch []) 0
              (mkElement "$root" ∅ [ChildElement 1; ChildElement 3] None))
    as (w' & Hrun & _ & Hd & Hb & _).
  - vm_compute; reflexivity.
  - vm_compute; reflexivity.
  - vm_compute; reflexivity.
  - reflexivity.
  - exists w'. split; [exact Hrun|]. split; [exact Hd|exact Hb].
Defined.

(** ** The split delta class *)

(** C5.  The reversal of a split delta with at least one operation is the
    reversal of the delta base class, which is a [MergeDelta] holding the
    reversed operations in reverse order, with the [isSticky] flag of its
    first operation set to true and the other operations untouched. *)
Theorem SplitDelta_getReversed_sticky
    (Operation_getReversed : Operation → Operation) (this : DeltaObj) :
  operations this ≠ [] →
  let base := Delta_getReversed Operation_getReversed SplitDelta__reverseDeltaClass this in
  ∃ ops op,
    operations this = ops ++ [op]
    ∧ class base = MergeDelta
    ∧ operations base = Operation_getReversed <$> reverse (operations this)
    ∧ operations base
        = Operation_getReversed op :: (Operation_getReversed <$> reverse ops)
    ∧ SplitDelta_getReversed Operation_getReversed this
        = mkDelta (class base)
            (set_isSticky true (Operation_getReversed op)
               :: (Operation_getReversed <$> reverse ops))
            (batch base)
    ∧ isSticky <$> operations (SplitDelta_getReversed Operation_getReversed this) !! 0
        = Some true.
Proof.
  intros Hne base.
  destruct (exists_last Hne) as (ops & op & Hops). exists ops, op.
  assert (operations base = Operation_getReversed op
            :: (Operation_getReversed <$> reverse ops)) as Hbase.
  { subst base. unfold Delta_getReversed. simpl.
    by rewrite Hops, reverse_app. }
  unfold SplitDelta_getReversed. fold base. rewrite Hbase. simpl.
  split_and!; done.
Qed.

Lemma SplitDelta_getReversed_sticky_witness :
  SplitDelta_getReversed Examples.Operation_getReversed Examples.splitDelta0
  = mkDelta MergeDelta
      [ mkOperation (MoveOperation (mkPosition 0 [1; 0]) 3 Examples.P) 6 true;
        mkOperation (MoveOperation (mkPosition 0 [1]) 1 (mkPosition 9 [0])) 5 false ]
      None.
Proof.
  destruct (SplitDelta_getReversed_sticky Examples.Operation_getReversed
              Examples.splitDelta0)
    as (ops & op & Hops & _ & _ & _ & Hrev & _).
  - discriminate.
  - rewrite Hrev. apply (app_inj_tail [Examples.insert0]) in Hops.
    destruct Hops as [<- <-]. reflexivity.
Defined.



(** C7.  The position of a split delta is computed from its operations:
    it is the [sourcePosition] of the second operation when there is one,
    which for a move operation is its source position, and [null] when
    the delta has fewer than two operations.  Deltas with the same
    operations have the same position. *)
Theorem SplitDelta_position_derived (this : DeltaObj) :
  (∀ op, operations this !! 1 = Some op →
     SplitDelta_position this = Operation_sourcePosition op)
  ∧ (∀ op source howMany target,
       operations this !! 1 = Some op →
       kind op = MoveOperation source howMany target →
       SplitDelta_position this = Value source)
  ∧ (length (operations this) < 2 → SplitDelta_position this = Null)
  ∧ (∀ other, operations other = operations this →
       SplitDelta_position other = SplitDelta_position this).
Proof.
  unfold SplitDelta_position, SplitDelta__moveOperation. split_and!.
  - by intros op ->.
  - intros op source howMany target -> Hk.
    unfold Operation_sourcePosition. by rewrite Hk.
  - intros Hlen. by rewrite lookup_ge_None_2 by lia.
  - by intros other ->.
Qed.

Lemma SplitDelta_position_derived_witness :
  SplitDelta_position Examples.splitDelta0 = Value Examples.P
  ∧ SplitDelta_position Examples.emptyDelta = Null.
Proof.
  split.
  - apply (proj1 (proj2 (SplitDelta_position_derived Examples.splitDelta0))
             Examples.move0 Examples.P 3%Z (mkPosition 0 [1; 0]));
      reflexivity.
  - apply (proj1 (proj2 (proj2 (SplitDelta_position_derived Examples.emptyDelta)))).
    simpl. lia.
Defined.

(** C6.  The split delta class declares its three pieces of metadata: the
    class name [engine.model.delta.SplitDelta], the priority 5 and the
    reverse delta class [MergeDelta].  Loading the module registers the
    class in the delta factory under its class name, in every registry in
    which that name is not taken by another class, and changes no other
    registration. *)
Theorem SplitDelta_metadata (registry : gmap string DeltaClass) :
  (∀ c, registry !! SplitDelta_className = Some c → c = SplitDelta) →
  SplitDelta_className = "engine.model.delta.SplitDelta"
  ∧ SplitDelta__priority = 5%Z
  ∧ SplitDelta__reverseDeltaClass = MergeDelta
  ∧ ∃ registry',
      registerSplitDelta registry = Some registry'
      ∧ registry' !! SplitDelta_className = Some SplitDelta
      ∧ ∀ tag, tag ≠ SplitDelta_className → registry' !! tag = registry !! tag.
Proof.
  intros Hfree. split_and!; [done..|].
  unfold registerSplitDelta, DeltaFactory_register.
  destruct (registry !! SplitDelta_className) as [c|] eqn:Hc.
  - rewrite (Hfree c eq_refl), decide_True by done.
    exists registry. by rewrite (Hfree c eq_refl) in Hc.
  - eexists. split; [done|]. split; [by rewrite lookup_insert_eq|].
    intros tag Htag. by rewrite lookup_insert_ne.
Qed.

Lemma SplitDelta_metadata_witness :
  ∃ registry',
    registerSplitDelta ∅ = Some registry'
    ∧ registry' !! "engine.model.delta.SplitDelta" = Some SplitDelta.
Proof.
  destruct (SplitDelta_metadata ∅) as (_ & _ & _ & registry' & Hreg & Hlook & _).
  - intros c Hc. rewrite lookup_empty in Hc. discriminate.
  - exists registry'. split; [exact Hreg|exact Hlook].
Defined.

(** ** More on the split delta and the split action *)

(** X1.  The delta that a returning [split] has built reports the split
    position: its [position] is the position [split] was called with, its
    [_cloneOperation] is the insert operation and its [_moveOperation] the
    move operation. *)
Theorem split_delta_reports_position w this position r w' :
  split this position w = (Return r, w') →
  let d := fresh (dom (deltaStore w)) in
  ∃ delta ins mv after copy,
    deltaStore w' !! d = Some delta
    ∧ operations delta = [ins; mv]
    ∧ kind ins = InsertOperation after [ChildElement copy]
    ∧ SplitDelta_position delta = Value position
    ∧ SplitDelta__cloneOperation delta = Value ins
    ∧ SplitDelta__moveOperation delta = Value mv.
Proof.
  intros H d.
  destruct (split_success_inv _ _ _ _ _ H)
    as (b & after & howMany & target & els3 & Hb & -> & Hw').
  simpl in Hw'. subst w'. simpl. eexists _, _, _, after, _.
  split; [by rewrite lookup_insert_eq|]. done.
Qed.

Lemma split_delta_reports_position_witness :
  ∃ w' delta,
    split 7 Examples.P Examples.w0 = (Return 7, w')
    ∧ deltaStore w' !! 0 = Some delta
    ∧ SplitDelta_position delta = Value Examples.P.
Proof.
  destruct (split_delta_reports_position Examples.w0 7 Examples.P 7
              (snd (split 7 Examples.P Examples.w0)))
    as (delta & ins & mv & after & copy & Hd & _ & _ & Hpos & _).
  - vm_compute; reflexivity.
  - exists (snd (split 7 Examples.P Examples.w0)), delta.
    split; [vm_compute; reflexivity|]. split; [exact Hd|exact Hpos].
Defined.

(** X2.  Whatever the outcome of [split] on an existing batch, the batch
    has gained exactly one delta, a new [SplitDelta] owned by it, and the
    operations applied to the document are a prefix of the operations of
    that delta that misses at most the last one: an operation is added to
    the delta before it is applied, and nothing is taken back when an
    application throws.  The call returns exactly when both operations
    were applied. *)
Theorem split_applies_prefix w this position b outcome w' :
  batchStore w !! this = Some b →
  split this position w = (outcome, w') →
  let d := fresh (dom (deltaStore w)) in
  ∃ ops applied,
    batchStore w' = <[this := mkBatch (deltas b ++ [d])]> (batchStore w)
    ∧ deltaStore w' = <[d := mkDelta SplitDelta ops (Some this)]> (deltaStore w)
    ∧ history (document w') = history (document w) ++ applied
    ∧ version (document w') = version (document w) + length applied
    ∧ applied `prefix_of` ops
    ∧ length ops ≤ S (length applied)
    ∧ length ops ≤ 2
    ∧ (outcome = Return this ↔ length applied = 2).
Proof.
  intros Hb H d. subst d. rewrite split_run in H. simpl in H. rewrite Hb in H.
  repeat match type of H with
         | match ?x with _ => _ end = _ => destruct x
         end;
    injection H as <- <-; eexists _, _; simpl;
    (split; [reflexivity|]); (split; [reflexivity|]);
    (split; [first [reflexivity | symmetry; apply app_nil_r]|]);
    simpl; split_and!;
    first [ lia
          | apply prefix_nil
          | reflexivity
          | by eexists [_]
          | by split; [intros [=]|intros [=]]
          | done ].
Qed.

Lemma split_applies_prefix_witness :
  ∃ w' ops applied,
    split 7 Examples.Proot Examples.w0 = (Throw batch_split_root, w')
    ∧ deltaStore w' = {[ 0 := mkDelta SplitDelta ops (Some 7) ]}
    ∧ history (document w') = [] ++ applied
    ∧ length ops ≤ S (length applied).
Proof.
  destruct (split_applies_prefix Examples.w0 7 Examples.Proot (mkBatch [])
              (Throw batch_split_root)
              (snd (split 7 Examples.Proot Examples.w0)))
    as (ops & applied & _ & Hds & Hh & _ & _ & Hlen & _).
  - vm_compute; reflexivity.
  - vm_compute; reflexivity.
  - exists (snd (split 7 Examples.Proot Examples.w0)), ops, applied.
    split; [vm_compute; reflexivity|].
    split; [exact Hds|]. split; [exact Hh|exact Hlen].
Defined.



(** X4.  The reversal of a split delta differs from the reversal of the
    base class at most in the [isSticky] flag of its first operation: it
    is a [MergeDelta] with as many operations as the delta reversed, and
    its operations have the kinds and the base versions of the reversed
    operations, in reverse order. *)
Theorem SplitDelta_getReversed_shape
    (Operation_getReversed : Operation → Operation) (this : DeltaObj) :
  let reversed := SplitDelta_getReversed Operation_getReversed this in
  class reversed = MergeDelta
  ∧ length (operations reversed) = length (operations this)
  ∧ kind <$> operations reversed
      = (kind ∘ Operation_getReversed) <$> reverse (operations this)
  ∧ baseVersion <$> operations reversed
      = (baseVersion ∘ Operation_getReversed) <$> reverse (operations this)
  ∧ ∀ i, 0 < i →
      operations reversed !! i
        = (Operation_getReversed <$> reverse (operations this)) !! i.
Proof.
  unfold SplitDelta_getReversed, Delta_getReversed. simpl.
  rewrite !list_fmap_compose.
  pose proof (length_reverse (operations this)) as Hlen.
  rewrite <- (length_fmap Operation_getReversed) in Hlen.
  destruct (Operation_getReversed <$> reverse (operations this))
    as [|first rest]; simpl in *.
  - split_and!; done.
  - split_and!; try done. intros [|i] Hi; [lia|done].
Qed.

(** X5.  The position of a split delta is a position only when the delta
    has a second operation that is a move operation with that position as
    its source; the delta then has a clone operation too.  It is
    [undefined] only when the second operation is not a move operation. *)
Theorem SplitDelta_position_inv (this : DeltaObj) :
  (∀ p, SplitDelta_position this = Value p →
     ∃ clone move howMany target,
       operations this !! 0 = Some clone
       ∧ operations this !! 1 = Some move
       ∧ kind move = MoveOperation p howMany target
       ∧ SplitDelta__cloneOperation this = Value clone
       ∧ SplitDelta__moveOperation this = Value move)
  ∧ (SplitDelta_position this = Undefined →
     ∃ second position nodes,
       operations this !! 1 = Some second
       ∧ kind second = InsertOperation position nodes)
  ∧ (SplitDelta_position this = Null → length (operations this) < 2).
Proof.
  unfold SplitDelta_position, SplitDelta__moveOperation,
    SplitDelta__cloneOperation, Operation_sourcePosition.
  destruct (operations this) as [|clone [|move rest]] eqn:Hops; simpl.
  - split_and!; [done|done|lia].
  - split_and!; [done|done|lia].
  - destruct (kind move) as [pos nodes|source howMany target] eqn:Hk.
    + split_and!; [done| |done]. intros _. by exists move, pos, nodes.
    + split_and!; [|done|done]. intros p [= <-].
      by exists clone, move, howMany, target.
Qed.

Lemma SplitDelta_position_inv_witness :
  ∃ clone move howMany target,
    operations Examples.splitDelta0 !! 0 = Some clone
    ∧ operations Examples.splitDelta0 !! 1 = Some move
    ∧ kind move = MoveOperation Examples.P howMany target.
Proof.
  destruct (proj1 (SplitDelta_position_inv Examples.splitDelta0) Examples.P)
    as (clone & move & howMany & target & H0 & H1 & Hk & _).
  - reflexivity.
  - by exists clone, move, howMany, target.
Defined.

(** X6.  [split] succeeds on every valid position: in a batch that
    exists, a position made from an attached element that has a parent,
    at an offset within the element, is split without an error, and the
    batch is returned. *)
Theorem split_valid_position_returns w this position b e eo q :
  batchStore w !! this = Some b →
  elementStore w !! e = Some eo →
  parent eo = Some q →
  createFromParentAndOffset (elementStore w) e (Position_offset position) = Some position →
  Position_offset position ≤ maxOffset eo →
  ∃ w', split this position w = (Return this, w')
        ∧ version (document w') = version (document w) + 2.
Proof.
  intros Hb Heo Hq Hpos Hoff.
  destruct (split_succeeds w this position b e eo q Hb Heo Hq Hpos Hoff) as [w' Hrun].
  exists w'. split; [done|].
  destruct (split_success_inv _ _ _ _ _ Hrun)
    as (b' & after & howMany & target & els3 & _ & _ & Hw').
  simpl in Hw'. subst w'. simpl. lia.
Qed.

Lemma split_valid_position_returns_witness :
  ∃ w', split 7 Examples.P Examples.w0 = (Return 7, w')
        ∧ version (document w') = 6.
Proof.
  destruct (split_valid_position_returns Examples.w0 7 Examples.P (mkBatch []) 1
              (mkElement "p" Examples.p_attrs [ChildText "abcd"; ChildElement 2] (Some 0))
              0)
    as (w' & Hrun & Hv).
  - vm_compute; reflexivity.
  - vm_compute; reflexivity.
  - reflexivity.
  - vm_compute; reflexivity.
  - vm_compute. lia.
  - exists w'. split; [exact Hrun|exact Hv].
Defined.

(** ** The features overview script *)

Module FeaturesOverviewFacts.
Import FeaturesOverview.

(** *** Strings *)

Lemma string_app_cons a s t : String a s +:+ t = String a (s +:+ t).
Proof. done. Qed.

Lemma string_app_nil_l s : EmptyString +:+ s = s.
Proof. done. Qed.

Lemma string_app_nil_r s : s +:+ EmptyString = s.
Proof. induction s as [|a s IH]; [done|]. by rewrite string_app_cons, IH. Qed.

Lemma string_app_assoc s t u : (s +:+ t) +:+ u = s +:+ (t +:+ u).
Proof. induction s as [|a s IH]; [done|]. by rewrite !string_app_cons, IH. Qed.

Lemma string_length_app s t : String.length (s +:+ t) = String.length s + String.length t.
Proof. induction s as [|a s IH]; [done|]. rewrite string_app_cons. simpl. by rewrite IH. Qed.

Lemma prefix_app p s : String.prefix p (p +:+ s) = true.
Proof.
  induction p as [|a p IH]; [by destruct s|].
  rewrite string_app_cons. simpl. by destruct (ascii_dec a a).
Qed.

Lemma prefix_app_l p q s : String.prefix (p +:+ q) s = true → String.prefix p s = true.
Proof.
  revert s. induction p as [|a p IH]; intros s; [by destruct s|].
  rewrite string_app_cons. destruct s as [|b s]; simpl; [done|].
  destruct (ascii_dec a b); [apply IH|done].
Qed.

Lemma stripPrefix_app p s : stripPrefix p (p +:+ s) = Some s.
Proof.
  induction p as [|a p IH]; [done|].
  rewrite string_app_cons. simpl. by rewrite decide_True.
Qed.

Lemma stripSuffix_app p s : stripSuffix p (s +:+ p) = Some s.
Proof.
  induction s as [|a s IH].
  - rewrite string_app_nil_l. destruct p; simpl; [done|]. by rewrite decide_True.
  - rewrite string_app_cons. simpl. rewrite decide_False.
    + by rewrite IH.
    + intros Heq. apply (f_equal String.length) in Heq.
      simpl in Heq. rewrite string_length_app in Heq. lia.
Qed.

Lemma includes_unfold p s :
  includes p s =
    if String.prefix p s then true
    else match s with
         | EmptyString => false
         | String _ s' => includes p s'
         end.
Proof. by destruct s. Qed.

Lemma includes_cons p a s :
  includes p (String a s) = String.prefix p (String a s) || includes p s.
Proof. rewrite includes_unfold. by destruct (String.prefix p (String a s)). Qed.

Lemma includes_prefix p s : String.prefix p s = true → includes p s = true.
Proof. intros H. by rewrite includes_unfold, H. Qed.

Lemma includes_nil p : includes p EmptyString = String.prefix p EmptyString.
Proof. rewrite includes_unfold. by destruct (String.prefix p EmptyString). Qed.

Lemma includes_app p s t : includes p (s +:+ p +:+ t) = true.
Proof.
  induction s as [|a s IH].
  - rewrite string_app_nil_l. apply includes_prefix, prefix_app.
  - rewrite string_app_cons, includes_cons, IH. apply orb_true_r.
Qed.

Lemma includes_app_l p q s : includes (p +:+ q) s = true → includes p s = true.
Proof.
  induction s as [|a s IH].
  - rewrite !includes_nil. apply prefix_app_l.
  - rewrite !includes_cons. intros [H|H]%orb_true_iff.
    + by rewrite (prefix_app_l _ _ _ H).
    + rewrite (IH H). apply orb_true_r.
Qed.

(** The character [c] does not occur in [s]. *)
Abbreviation absent c s := (includes (String c EmptyString) s = false).

Lemma absent_cons c a s : absent c (String a s) ↔ a ≠ c ∧ absent c s.
Proof.
  rewrite includes_cons. simpl. destruct (ascii_dec c a) as [->|Hne].
  - destruct s; simpl; (split; [done|by intros [? _]]).
  - simpl. split; [intros ?; split; congruence|by intros [_ ?]].
Qed.

Lemma absent_app c s t : absent c (s +:+ t) ↔ absent c s ∧ absent c t.
Proof.
  induction s as [|a s IH].
  - rewrite string_app_nil_l. simpl. tauto.
  - rewrite string_app_cons, !absent_cons, IH. tauto.
Qed.

Lemma absent_app_3 c s t u :
  absent c (s +:+ t +:+ u) ↔ absent c s ∧ absent c t ∧ absent c u.
Proof. by rewrite !absent_app. Qed.

Lemma replaceAllChar_absent c r s : r ≠ c → absent c (replaceAllChar c r s).
Proof.
  intros Hne. induction s as [|a s IH]; [done|].
  simpl. apply absent_cons. split; [|done]. by destruct (decide (a = c)).
Qed.

Lemma replaceFirstChar_absent c r s : absent c s → replaceFirstChar c r s = s.
Proof.
  induction s as [|a s IH]; [done|]. intros [Hne Hs]%absent_cons.
  simpl. rewrite decide_False by done. by rewrite IH.
Qed.

Lemma replaceFirstChar_first c r s t :
  absent c s → replaceFirstChar c r (s +:+ String c t) = s +:+ r +:+ t.
Proof.
  induction s as [|a s IH]; intros Hs.
  - rewrite !string_app_nil_l. simpl. by rewrite decide_True.
  - apply absent_cons in Hs as [Hne Hs]. rewrite !string_app_cons. simpl.
    rewrite decide_False by done. by rewrite IH.
Qed.

Lemma codeSpans_opened_absent text s :
  absent "`"%char s → codeSpans (Some text) s = "`" +:+ text +:+ s.
Proof.
  revert text. induction s as [|a s IH]; intros text Hs.
  - simpl. by rewrite string_app_nil_r.
  - apply absent_cons in Hs as [Hne Hs]. simpl.
    rewrite decide_False by done.
    assert (codeSpans None s = s) as Hnone.
    { clear IH Hne. induction s as [|b s IHs]; [done|].
      apply absent_cons in Hs as [Hne Hs]. simpl.
      rewrite decide_False by done. by rewrite IHs. }
    destruct (lineTerminator a s).
    + by rewrite Hnone.
    + rewrite IH by done. rewrite string_app_assoc. done.
Qed.

Lemma codeSpans_absent s : absent "`"%char s → codeSpans None s = s.
Proof.
  induction s as [|a s IH]; [done|]. intros [Hne Hs]%absent_cons.
  simpl. rewrite decide_False by done. by rewrite IH.
Qed.

Lemma concat_filter (items : list string) :
  String.concat EmptyString (filter (λ item, item ≠ EmptyString) items)
  = foldr String.append EmptyString items.
Proof.
  induction items as [|item items IH]; [done|]. simpl.
  rewrite filter_cons. destruct (decide (item ≠ EmptyString)) as [Hne|Heq].
  - rewrite <- IH. simpl.
    destruct (filter _ items) as [|i is_]; simpl; [by rewrite string_app_nil_r|done].
  - apply dec_stable in Heq. subst item. by rewrite IH.
Qed.

(** *** Links *)

(** X7.  For a plugin in the standard layout, a file [src/p.js] of a
    package [ckeditor5-short], the API link points to
    [module_short_p'-Class.html], where [p'] is [p] with every slash
    replaced by an underscore.  The package prefix is stripped once: what
    follows it is kept even if it starts with the prefix again. *)
Theorem prepareApiLink_standard_layout (plugin : Plugin.t) (short p : string) :
  Plugin.path plugin = "src/" +:+ p +:+ ".js" →
  prepareApiLink ("ckeditor5-" +:+ short) plugin
    = "<a href=" +:+ dquote +:+ "../../../api/module_" +:+ short +:+ "_"
        +:+ replaceAllChar "/"%char "_"%char p +:+ "-" +:+ Plugin.className plugin
        +:+ ".html" +:+ dquote +:+ "><code class=" +:+ dquote +:+ "nowrap"
        +:+ dquote +:+ ">" +:+ Plugin.className plugin +:+ "</code></a>".
Proof.
  intros Hpath. unfold prepareApiLink, shortPackageName, packagePath.
  rewrite Hpath, !stripPrefix_app. simpl.
  rewrite stripSuffix_app. simpl. by rewrite !string_app_assoc.
Qed.

Lemma prepareApiLink_standard_layout_witness :
  prepareApiLink "ckeditor5-basic-styles" boldPlugin
    = "<a href=" +:+ dquote
        +:+ "../../../api/module_basic-styles_bold_boldediting-Bold.html"
        +:+ dquote +:+ "><code class=" +:+ dquote +:+ "nowrap" +:+ dquote
        +:+ ">Bold</code></a>".
Proof.
  apply (prepareApiLink_standard_layout boldPlugin "basic-styles" "bold/boldediting").
  reflexivity.
Defined.

(** X8.  Whatever the path of the plugin, the module path that
    [prepareApiLink] puts into the link holds no slash. *)
Theorem packagePath_no_slash (path : string) :
  includes "/" (packagePath path) = false.
Proof. unfold packagePath. by apply replaceAllChar_absent. Qed.

(** X9.  [prepareFeatureLink] keeps the documentation address as it is
    when [http:] or [https:] occurs anywhere in it, not only at its start,
    and otherwise, in particular when it does not mention [http] at all,
    makes it relative to three directories up. *)
Theorem prepareFeatureLink_unanchored (plugin : Plugin.t) (docs : string) :
  Plugin.docs plugin = Some docs →
  let link target :=
    "<a href=" +:+ dquote +:+ target +:+ dquote +:+ ">" +:+ Plugin.name plugin
      +:+ "</a>" in
  (∀ before after, docs = before +:+ "http:" +:+ after →
     prepareFeatureLink plugin = link docs)
  ∧ (∀ before after, docs = before +:+ "https:" +:+ after →
     prepareFeatureLink plugin = link docs)
  ∧ (includes "http" docs = false →
     prepareFeatureLink plugin = link ("../../../" +:+ docs)).
Proof.
  intros Hdocs link. unfold prepareFeatureLink. rewrite Hdocs. simpl.
  split_and!.
  - intros before after ->. by rewrite includes_app.
  - intros before after ->. rewrite (includes_app "https:"). by rewrite orb_true_r.
  - intros Hnone.
    destruct (includes "http:" docs) eqn:H1.
    { apply (includes_app_l "http" ":") in H1. congruence. }
    destruct (includes "https:" docs) eqn:H2.
    { apply (includes_app_l "http" "s:") in H2. congruence. }
    done.
Qed.

Lemma prepareFeatureLink_unanchored_witness :
  prepareFeatureLink
    (Plugin.mk "Bold" "Bold" (Some "docs/about-http:-links.html") "src/bold.js" None)
  = "<a href=" +:+ dquote +:+ "docs/about-http:-links.html" +:+ dquote
      +:+ ">Bold</a>"
  ∧ prepareFeatureLink boldPlugin
    = "<a href=" +:+ dquote +:+ "../../../features/basic-styles.html" +:+ dquote
        +:+ ">Bold</a>".
Proof.
  split.
  - apply (proj1 (prepareFeatureLink_unanchored
             (Plugin.mk "Bold" "Bold" (Some "docs/about-http:-links.html") "src/bold.js" None)
             "docs/about-http:-links.html" eq_refl) "docs/about-" "-links.html").
    reflexivity.
  - apply (proj2 (proj2 (prepareFeatureLink_unanchored boldPlugin
             "features/basic-styles.html" eq_refl))).
    reflexivity.
Defined.

(** *** The output of a plugin *)

Lemma string_app_eq_nil s t : s +:+ t = EmptyString ↔ s = EmptyString ∧ t = EmptyString.
Proof.
  destruct s; [rewrite string_app_nil_l|rewrite string_app_cons];
    (split; [intros ?|intros [? ?]]; [split|]; congruence).
Qed.

Lemma prepareHtmlOutput_parts (htmlOutput : list HtmlOutput.t) :
  prepareHtmlOutput htmlOutput
  = (λ entry,
       elementsPart entry +:+ classesPart entry +:+ stylesPart entry
         +:+ attributesPart entry +:+ othersPart entry +:+ commentPart entry)
    <$> htmlOutput.
Proof.
  unfold prepareHtmlOutput. apply list_fmap_ext. intros i entry _.
  rewrite concat_filter. simpl. by rewrite string_app_nil_r.
Qed.

Lemma wrap_elements (items : list string) :
  wrapBy code <$> (wrapBy angle <$> (wrapBy strong <$> items))
  = (λ item, "<code>&lt;<strong>" +:+ item +:+ "</strong>&gt;</code>") <$> items.
Proof.
  rewrite <- !list_fmap_compose. apply list_fmap_ext. intros i item _.
  unfold wrapBy. simpl. by rewrite !string_app_assoc.
Qed.

(** X10.  The elements of an entry are wrapped three times, innermost
    in [strong], then in escaped angle brackets, outermost in [code], and
    joined by commas in one paragraph.  An empty array still gives a
    paragraph, an empty one; the empty string and an absent value give
    nothing. *)
Theorem prepareHtmlOutput_elements (elements : option StringOrArray) :
  prepareHtmlOutput [HtmlOutput.mk elements None None None None None]
  = [ match elements with
      | Some (JsArray items) =>
          "<p>"
            +:+ String.concat ", "
                  ((λ item, "<code>&lt;<strong>" +:+ item +:+ "</strong>&gt;</code>")
                     <$> items)
            +:+ "</p>"
      | Some (JsString item) =>
          if decide (item = EmptyString) then EmptyString
          else "<p><code>&lt;<strong>" +:+ item +:+ "</strong>&gt;</code></p>"
      | None => EmptyString
      end ].
Proof.
  rewrite prepareHtmlOutput_parts. simpl. f_equal.
  unfold elementsPart, classesPart, stylesPart, attributesPart, othersPart,
    commentPart. simpl. rewrite !string_app_nil_r.
  destruct elements as [[item|items]|]; simpl; [|by rewrite wrap_elements|done].
  destruct (decide (item = EmptyString)); [done|].
  rewrite wrap_elements. simpl. by rewrite !string_app_assoc.
Qed.

(** X11.  [prepareHtmlOutput] gives one output for each entry, and an
    output is the empty string exactly when the entry declares nothing:
    none of its six fields is truthy. *)
Theorem prepareHtmlOutput_blank (htmlOutput : list HtmlOutput.t) :
  length (prepareHtmlOutput htmlOutput) = length htmlOutput
  ∧ ∀ i entry, htmlOutput !! i = Some entry →
      (prepareHtmlOutput htmlOutput !! i = Some EmptyString
       ↔ truthy (HtmlOutput.elements entry) = None
         ∧ truthy (HtmlOutput.classes entry) = None
         ∧ truthy (HtmlOutput.styles entry) = None
         ∧ truthy (HtmlOutput.attributes entry) = None
         ∧ truthy (HtmlOutput.implements entry) = None
         ∧ truthyString (HtmlOutput._comment entry) = None).
Proof.
  rewrite prepareHtmlOutput_parts. split; [by rewrite length_fmap|].
  intros i entry Hi. rewrite list_lookup_fmap, Hi. simpl.
  unfold elementsPart, classesPart, stylesPart, attributesPart, othersPart,
    commentPart.
  split.
  - intros [= H]. repeat apply string_app_eq_nil in H as [? H].
    repeat match goal with
           | |- context [truthy ?v] => destruct (truthy v); [done|]
           | |- context [truthyString ?v] => destruct (truthyString v); [done|]
           end.
    done.
  - intros (-> & -> & -> & -> & -> & ->). done.
Qed.

Lemma prepareHtmlOutput_blank_witness :
  prepareHtmlOutput [noOutput] !! 0 = Some EmptyString.
Proof.
  apply (proj2 (prepareHtmlOutput_blank [noOutput]) 0 noOutput eq_refl).
  repeat split.
Defined.

(** X12.  In a comment only the first [<] is escaped: whatever follows
    it, further [<] included, is kept as written. *)
Theorem comment_escapes_first_only (before after : string) :
  absent "<"%char before →
  absent ">"%char (before +:+ after) →
  absent "`"%char (before +:+ after) →
  prepareHtmlOutput
    [HtmlOutput.mk None None None None None (Some (before +:+ "<" +:+ after))]
  = ["<p>" +:+ before +:+ "&lt;" +:+ after +:+ "</p>"].
Proof.
  intros Hlt [Hgt1 Hgt2]%absent_app [Hbt1 Hbt2]%absent_app.
  rewrite prepareHtmlOutput_parts. simpl. f_equal.
  unfold elementsPart, classesPart, stylesPart, attributesPart, othersPart,
    commentPart. simpl.
  rewrite decide_False.
  2:{ intros Heq. apply (f_equal String.length) in Heq.
      rewrite !string_length_app in Heq. simpl in Heq. lia. }
  change ("<" +:+ after) with (String "<"%char after).
  rewrite replaceFirstChar_first by done.
  rewrite replaceFirstChar_absent, codeSpans_absent.
  - by rewrite !string_app_assoc.
  - apply absent_app. split; [done|]. by apply (absent_app _ "&lt;").
  - apply absent_app. split; [done|]. by apply (absent_app _ "&lt;").
Qed.

Lemma comment_escapes_first_only_witness :
  prepareHtmlOutput
    [HtmlOutput.mk None None None None None (Some "a < b < c")]
  = ["<p>a &lt; b < c</p>"].
Proof.
  apply (comment_escapes_first_only "a " " b < c"); reflexivity.
Defined.

Lemma codeSpans_closed text span rest :
  absent "`"%char span →
  absent "010"%char span → absent "013"%char span → absent "226"%char span →
  codeSpans (Some text) (span +:+ String "`"%char rest)
  = "<code>" +:+ text +:+ span +:+ "</code>" +:+ codeSpans None rest.
Proof.
  revert text. induction span as [|a span IH]; intros text Hbt Hlf Hcr He2.
  - rewrite string_app_nil_l. simpl. by rewrite string_app_nil_l.
  - apply absent_cons in Hbt as [? ?]. apply absent_cons in Hlf as [? ?].
    apply absent_cons in Hcr as [? ?]. apply absent_cons in He2 as [? ?].
    rewrite string_app_cons. simpl. rewrite decide_False by done.
    unfold lineTerminator. rewrite !decide_False by done.
    rewrite IH by done. by rewrite !string_app_assoc.
Qed.

Lemma codeSpans_outside text s :
  absent "`"%char text → codeSpans None (text +:+ s) = text +:+ codeSpans None s.
Proof.
  induction text as [|a text IH]; [done|]. intros [? ?]%absent_cons.
  rewrite !string_app_cons. simpl. rewrite decide_False by done. by rewrite IH.
Qed.

(** X13.  In a comment, the text between a pair of backticks on one line
    is put into [code] tags; a backtick without a partner stays as it
    is. *)
Theorem comment_code_spans (before span after : string) :
  absent "<"%char (before +:+ span +:+ after) →
  absent ">"%char (before +:+ span +:+ after) →
  absent "`"%char (before +:+ span +:+ after) →
  absent "010"%char span → absent "013"%char span → absent "226"%char span →
  prepareHtmlOutput
    [HtmlOutput.mk None None None None None
       (Some (before +:+ "`" +:+ span +:+ "`" +:+ after))]
  = ["<p>" +:+ before +:+ "<code>" +:+ span +:+ "</code>" +:+ after +:+ "</p>"]
  ∧ prepareHtmlOutput
      [HtmlOutput.mk None None None None None (Some (before +:+ "`" +:+ after))]
    = ["<p>" +:+ before +:+ "`" +:+ after +:+ "</p>"].
Proof.
  intros (Hlt1 & Hlt2 & Hlt3)%absent_app_3 (Hgt1 & Hgt2 & Hgt3)%absent_app_3
    (Hbt1 & Hbt2 & Hbt3)%absent_app_3 Hlf Hcr He2.
  rewrite !prepareHtmlOutput_parts. simpl.
  unfold elementsPart, classesPart, stylesPart, attributesPart, othersPart,
    commentPart. simpl.
  rewrite !decide_False.
  2,3: intros Heq; apply (f_equal String.length) in Heq;
       rewrite !string_length_app in Heq; simpl in Heq; lia.
  change ("`" +:+ span +:+ "`" +:+ after)
    with (String "`"%char (span +:+ String "`"%char after)).
  change ("`" +:+ after) with (String "`"%char after).
  rewrite !replaceFirstChar_absent.
  - rewrite !codeSpans_outside by done. simpl.
    rewrite codeSpans_closed by done. rewrite string_app_nil_l.
    rewrite codeSpans_opened_absent, codeSpans_absent by done.
    rewrite string_app_nil_l. by rewrite !string_app_assoc.
  - apply absent_app. split; [done|]. by apply absent_cons.
  - rewrite replaceFirstChar_absent.
    + apply absent_app. split; [done|]. by apply absent_cons.
    + apply absent_app. split; [done|]. by apply absent_cons.
  - apply absent_app. split; [done|]. apply absent_cons. split; [done|].
    apply absent_app. split; [done|]. by apply absent_cons.
  - rewrite replaceFirstChar_absent.
    + apply absent_app. split; [done|]. apply absent_cons. split; [done|].
      apply absent_app. split; [done|]. by apply absent_cons.
    + apply absent_app. split; [done|]. apply absent_cons. split; [done|].
      apply absent_app. split; [done|]. by apply absent_cons.
Qed.

Lemma comment_code_spans_witness :
  prepareHtmlOutput
    [HtmlOutput.mk None None None None None (Some "Use `class` here")]
  = ["<p>Use <code>class</code> here</p>"].
Proof.
  apply (proj1 (comment_code_spans "Use " "class" " here"
                  eq_refl eq_refl eq_refl eq_refl eq_refl eq_refl)).
Defined.

(** *** The rows of the table *)

Lemma concat_foldr (items : list string) :
  String.concat EmptyString items = foldr String.append EmptyString items.
Proof.
  induction items as [|item items IH]; [done|]. simpl. rewrite <- IH.
  destruct items; simpl; [by rewrite string_app_nil_r|done].
Qed.

Lemma foldr_append_app (l1 l2 : list string) :
  foldr String.append EmptyString (l1 ++ l2)
  = foldr String.append EmptyString l1 +:+ foldr String.append EmptyString l2.
Proof.
  induction l1 as [|x l1 IH]; [done|]. simpl. by rewrite IH, string_app_assoc.
Qed.

Lemma concat_join (lists : list (list string)) :
  String.concat EmptyString (String.concat EmptyString <$> lists)
  = String.concat EmptyString (mjoin lists).
Proof.
  rewrite !concat_foldr. induction lists as [|l lists IH]; [done|].
  csimpl. by rewrite IH, concat_foldr, foldr_append_app.
Qed.

Lemma foldl_sum {A} (g : A → nat) (l : list A) (start : nat) :
  foldl (λ result x, result + g x) start l = start + sum_list (g <$> l).
Proof.
  revert start. induction l as [|x l IH]; intros start; csimpl; [lia|].
  rewrite IH. lia.
Qed.

Lemma length_join_imap {A} (f : nat → A → list string) (g : A → nat) (l : list A) :
  (∀ i x, length (f i x) = g x) →
  length (mjoin (imap f l)) = sum_list (g <$> l).
Proof.
  revert f. induction l as [|x l IH]; intros f Hf; [done|].
  csimpl. rewrite length_app, Hf, (IH (f ∘ S)); [done|].
  intros i y. apply Hf.
Qed.

(** The rows of a package, before they are joined. *)
Abbreviation rowsOf packageMetadata :=
  (mjoin (imap (pluginRows packageMetadata) (ParsedFile.plugins packageMetadata))).

Lemma packageRows_rows (packageMetadata : ParsedFile.t) :
  packageRows packageMetadata = String.concat EmptyString (rowsOf packageMetadata).
Proof.
  unfold packageRows. rewrite <- concat_join. f_equal.
  generalize (pluginRows packageMetadata).
  induction (ParsedFile.plugins packageMetadata) as [|p ps IH]; intros f; [done|].
  simpl. f_equal. apply (IH (f ∘ S)).
Qed.

(** X14.  The number that the package cell announces in its [rowspan]
    is the number of rows generated for the package, and the output of
    [parseMetadataFiles] is these rows of all packages joined in order.
    The number it returns counts the packages, not the rows. *)
Theorem rows_match_rowspan (files : list ParsedFile.t) :
  (∀ packageMetadata,
     packageRows packageMetadata = String.concat EmptyString (rowsOf packageMetadata)
     ∧ length (rowsOf packageMetadata) = numberOfRowsPerPackage packageMetadata)
  ∧ parseMetadataFiles files
    = (String.concat EmptyString (files ≫= λ packageMetadata, rowsOf packageMetadata),
       length files).
Proof.
  pose proof packageRows_rows as Hrows.
  split.
  - intros pm. split; [done|]. unfold numberOfRowsPerPackage.
    rewrite foldl_sum. simpl. apply length_join_imap.
    intros i p. unfold pluginRows. by rewrite length_imap.
  - unfold parseMetadataFiles. rewrite length_fmap. f_equal.
    induction files as [|pm files IH]; [done|].
    rewrite fmap_cons, bind_cons. rewrite !concat_foldr in *.
    simpl. rewrite foldr_append_app, <- IH, Hrows, concat_foldr. done.
Qed.

(** X15.  A plugin that declares no [htmlOutput] takes exactly one row
    of the table, which reads [None.]; a plugin that declares an empty
    list of outputs takes no row at all.  Metadata without plugins gives
    no parsed plugin. *)
Theorem plugin_without_output_rows (packageName : string)
    (plugins : list Plugin.t) (i : nat) (plugin : Plugin.t) :
  plugins !! i = Some plugin →
  preparePlugins packageName None = []
  ∧ length (preparePlugins packageName (Some plugins)) = length plugins
  ∧ ∃ parsed,
      preparePlugins packageName (Some plugins) !! i = Some parsed
      ∧ (Plugin.htmlOutput plugin = None →
         ParsedPlugin.htmlOutput parsed = ["<p>None.</p>"]
         ∧ ∀ packageMetadata pluginIndex, ∃ packageNameCell,
             pluginRows packageMetadata pluginIndex parsed
             = ["<tr>" +:+ packageNameCell +:+ "<td >" +:+ ParsedPlugin.name parsed
                  +:+ "</td><td><p>None.</p></td></tr>"])
      ∧ (Plugin.htmlOutput plugin = Some [] →
         ∀ packageMetadata pluginIndex,
           pluginRows packageMetadata pluginIndex parsed = []).
Proof.
  intros Hi. split; [done|]. unfold preparePlugins. simpl.
  split; [by rewrite length_fmap|].
  rewrite list_lookup_fmap, Hi. simpl. eexists. split; [done|]. simpl.
  split.
  - intros ->. split; [done|]. intros pm j. unfold pluginRows. simpl.
    match goal with |- context [ "<tr>" +:+ ?cell +:+ _ ] => exists cell end.
    unfold rowspan at 2. simpl. by rewrite !string_app_assoc.
  - intros ->. done.
Qed.

Lemma plugin_without_output_rows_witness :
  ∃ parsed,
    preparePlugins "ckeditor5-undo" (Some [boldPlugin; undoPlugin; silentPlugin]) !! 1
      = Some parsed
    ∧ ParsedPlugin.htmlOutput parsed = ["<p>None.</p>"].
Proof.
  destruct (plugin_without_output_rows "ckeditor5-undo"
              [boldPlugin; undoPlugin; silentPlugin] 1 undoPlugin eq_refl)
    as (_ & _ & parsed & Hparsed & Hnone & _).
  exists parsed. split; [exact Hparsed|]. apply Hnone. reflexivity.
Defined.



End FeaturesOverviewFacts.
